(** * DCmotor-control: the motor class of [lib/dcMotor.py]

    A shallow embedding of the MicroPython class [DCmotor] and of the
    module-level function [map], followed by the properties of the
    actuation primitives ([run], [rotate], [reverseRotation], [brake]) and
    of the polled, non-blocking timed operations ([runFor], [waitFor],
    [accelerate]).
    The callers of [main.py] ([taskA], [taskB] and the main loop) are
    embedded over the same definitions.

    Modelling conventions
    - Python integers are [Z] (unbounded, as in Python).
    - The float arithmetic of [map] is idealised as exact rational
      arithmetic on [Q]; [math.trunc] is truncation toward zero.
    - A method of the class is a computation in a state-and-exception
      monad over a [World]: the motor object, the millisecond clock that
      [ticks_ms()] reads, and a chronological log of hardware writes and
      of method invocations.
    - [ticks_ms()] is an oracle: the [n]-th read of the program returns
      [ticks w n].  Nothing is assumed about two reads inside one call. *)

From Stdlib Require Import ZArith QArith Qround List Bool String Lia.
Import ListNotations.
Open Scope Z_scope.

Module dcMotor.

(** ** Module constants *)

Definition CCW : Z := 0. (* counterclockwise *)
Definition CW : Z := 1. (* clockwise *)
Definition PWMRESOLUTIONBITS : Z := 10. (* 10 bit *)

(** ** Exceptions and results *)

Inductive Exn : Type := ZeroDivisionError.

Inductive result (A : Type) : Type :=
| Ok (a : A)
| Raise (e : Exn).
Arguments Ok {A} a.
Arguments Raise {A} e.

(** ** [map] *)

(** [math.trunc]: the integer part, rounding toward zero. *)
Definition trunc (v : Q) : Z := Z.quot (Qnum v) (Zpos (Qden v)).

(** Map x in the range inMin .. inMax to the range outMin .. outMax.
    The true division of two integers raises [ZeroDivisionError] when the
    divisor is zero. *)
Definition map (x inMin inMax outMin outMax : Z) : result Z :=
  if inMax - inMin =? 0 then Raise ZeroDivisionError
  else
    let m := (inject_Z (outMax - outMin) / inject_Z (inMax - inMin))%Q in
    let q := (inject_Z outMax - m * inject_Z inMax)%Q in
    Ok (trunc (m * inject_Z x + q + (1 # 2))%Q).

(** The value [map] returns, for stating properties ([0] where it raises). *)
Definition map_value (x inMin inMax outMin outMax : Z) : Z :=
  match map x inMin inMax outMin outMax with
  | Ok v => v
  | Raise _ => 0
  end.

(** ** The motor object and its world *)

Record Pin : Type := mkPin { pin_id : Z; pin_level : Z }.
Record PWM : Type := mkPWM { pwm_pin : Z; pwm_freq : Z; pwm_duty : Z }.

Record DCmotor : Type := mkDCmotor {
  _id : string;
  _pinPwm : PWM;
  _pin1 : Pin;
  _pin2 : Pin;
  _rotation : Z;
  _dutyMax : Z;
  _dutyMin : Z;
  _firstRun : bool;
  _msPrevious : Z;
  _accelMode : Z;
  _sp : Z
}.

(** What the program does to the outside, in the order it does it: the
    three hardware writes, and (as instrumentation) the entry into the
    methods [run], [brake] and [rotate]. *)
Inductive Event : Type :=
| Pin1Value (v : Z)
| Pin2Value (v : Z)
| PwmDuty (d : Z)
| CallRun (speed : Z)
| CallBrake
| CallRotate (direction : Z).

Record World : Type := mkWorld {
  self : DCmotor;
  ticks : nat -> Z;   (* the successive readings of ticks_ms() *)
  reads : nat;        (* how many readings were taken so far *)
  trace : list Event  (* oldest event first *)
}.

(** ** The monad *)

Definition M (A : Type) : Type := World -> result (A * World).

Definition ret {A} (a : A) : M A := fun w => Ok (a, w).

Definition bind {A B} (c : M A) (k : A -> M B) : M B :=
  fun w => match c w with
           | Ok (a, w') => k a w'
           | Raise e => Raise e
           end.

Notation "x <- c ;; k" := (bind c (fun x => k))
  (at level 61, c at next level, right associativity).
Notation "c ;; k" := (bind c (fun _ => k))
  (at level 61, right associativity).

Definition raise_on {A} (r : result A) : M A :=
  fun w => match r with
           | Ok a => Ok (a, w)
           | Raise e => Raise e
           end.

Definition get {A} (f : DCmotor -> A) : M A := fun w => Ok (f (self w), w).

Definition modify (f : DCmotor -> DCmotor) : M unit :=
  fun w => Ok (tt, mkWorld (f (self w)) (ticks w) (reads w) (trace w)).

Definition emit (e : Event) : M unit :=
  fun w => Ok (tt, mkWorld (self w) (ticks w) (reads w) (trace w ++ [e])).

Definition when (b : bool) (c : M unit) : M unit := if b then c else ret tt.

(** [ticks_ms()]: the next reading of the millisecond counter. *)
Definition ticks_ms : M Z :=
  fun w => Ok (ticks w (reads w),
               mkWorld (self w) (ticks w) (S (reads w)) (trace w)).

(** ** Field assignments *)

Definition with_pinPwm_duty (d : Z) (s : DCmotor) : DCmotor :=
  mkDCmotor (_id s) (mkPWM (pwm_pin (_pinPwm s)) (pwm_freq (_pinPwm s)) d)
            (_pin1 s) (_pin2 s) (_rotation s) (_dutyMax s) (_dutyMin s)
            (_firstRun s) (_msPrevious s) (_accelMode s) (_sp s).

Definition with_pin1_value (v : Z) (s : DCmotor) : DCmotor :=
  mkDCmotor (_id s) (_pinPwm s) (mkPin (pin_id (_pin1 s)) v) (_pin2 s)
            (_rotation s) (_dutyMax s) (_dutyMin s)
            (_firstRun s) (_msPrevious s) (_accelMode s) (_sp s).

Definition with_pin2_value (v : Z) (s : DCmotor) : DCmotor :=
  mkDCmotor (_id s) (_pinPwm s) (_pin1 s) (mkPin (pin_id (_pin2 s)) v)
            (_rotation s) (_dutyMax s) (_dutyMin s)
            (_firstRun s) (_msPrevious s) (_accelMode s) (_sp s).

Definition with_rotation (r : Z) (s : DCmotor) : DCmotor :=
  mkDCmotor (_id s) (_pinPwm s) (_pin1 s) (_pin2 s) r (_dutyMax s) (_dutyMin s)
            (_firstRun s) (_msPrevious s) (_accelMode s) (_sp s).

Definition with_firstRun (b : bool) (s : DCmotor) : DCmotor :=
  mkDCmotor (_id s) (_pinPwm s) (_pin1 s) (_pin2 s) (_rotation s)
            (_dutyMax s) (_dutyMin s) b (_msPrevious s) (_accelMode s) (_sp s).

Definition with_msPrevious (t : Z) (s : DCmotor) : DCmotor :=
  mkDCmotor (_id s) (_pinPwm s) (_pin1 s) (_pin2 s) (_rotation s)
            (_dutyMax s) (_dutyMin s) (_firstRun s) t (_accelMode s) (_sp s).

Definition with_accelMode (a : Z) (s : DCmotor) : DCmotor :=
  mkDCmotor (_id s) (_pinPwm s) (_pin1 s) (_pin2 s) (_rotation s)
            (_dutyMax s) (_dutyMin s) (_firstRun s) (_msPrevious s) a (_sp s).

Definition with_sp (v : Z) (s : DCmotor) : DCmotor :=
  mkDCmotor (_id s) (_pinPwm s) (_pin1 s) (_pin2 s) (_rotation s)
            (_dutyMax s) (_dutyMin s) (_firstRun s) (_msPrevious s)
            (_accelMode s) v.

(** The three hardware writes: [self._pin1.value(v)], [self._pin2.value(v)]
    and [self._pinPwm.duty(d)]. *)
Definition pin1_value (v : Z) : M unit :=
  modify (with_pin1_value v) ;; emit (Pin1Value v).
Definition pin2_value (v : Z) : M unit :=
  modify (with_pin2_value v) ;; emit (Pin2Value v).
Definition pinPwm_duty (d : Z) : M unit :=
  modify (with_pinPwm_duty d) ;; emit (PwmDuty d).

(** ** The class *)

(** [__init__]: the object after construction, and the writes made. *)
Definition init (motorID : string) (pinPwmEnab pin1 pin2 pwmFrequency : Z)
  : DCmotor :=
  mkDCmotor motorID
            (mkPWM pinPwmEnab pwmFrequency 0)
            (mkPin pin1 1)   (* rotate CW *)
            (mkPin pin2 0)
            CW
            (Z.shiftl 1 PWMRESOLUTIONBITS - 1)
            0
            true 0 0 0.

Definition init_world (s : DCmotor) (clk : nat -> Z) : World :=
  mkWorld s clk 0%nat [PwmDuty 0; Pin1Value 1; Pin2Value 0].

(** Set the direction of rotation as CW or CCW. *)
Definition rotate (direction : Z) : M unit :=
  emit (CallRotate direction) ;;
  if direction =? CW then
    pin1_value 1 ;;
    pin2_value 0 ;;
    modify (with_rotation CW)
  else
    pin1_value 0 ;;
    pin2_value 1 ;;
    modify (with_rotation CCW).

(** Reverse the direction of rotation. *)
Definition reverseRotation : M unit :=
  r <- get _rotation ;;
  modify (with_rotation (if r =? CCW then CW else CCW)).

(** Brake the motor quickly. *)
Definition brake : M unit :=
  emit CallBrake ;;
  pin1_value 0 ;;
  pin2_value 0 ;;
  pinPwm_duty 0.

(** Run the motor at the given speed. *)
Definition run (speed : Z) : M unit :=
  emit (CallRun speed) ;;
  dmin <- get _dutyMin ;;
  dmax <- get _dutyMax ;;
  duty <- raise_on (map speed 0 100 dmin dmax) ;;
  pinPwm_duty duty ;;
  r <- get _rotation ;;
  rotate r.

(** Run the motor with the given speed for msToRun milliseconds. *)
Definition runFor (speed msToRun : Z) : M bool :=
  first <- get _firstRun ;;
  when first
    (t <- ticks_ms ;;
     modify (with_msPrevious t) ;;
     modify (with_firstRun false)) ;;
  when (speed >=? 0) (run speed) ;;
  now <- ticks_ms ;;
  prev <- get _msPrevious ;;
  when (now - prev >? msToRun)
    (brake ;;
     modify (with_firstRun true)) ;;
  get _firstRun.

(** Wait for the given msToWait milliseconds. *)
Definition waitFor (msToWait : Z) : M bool :=
  first <- get _firstRun ;;
  when first
    (brake ;;
     t <- ticks_ms ;;
     modify (with_msPrevious t) ;;
     modify (with_firstRun false)) ;;
  now <- ticks_ms ;;
  prev <- get _msPrevious ;;
  when (now - prev >? msToWait)
    (modify (with_firstRun true)) ;;
  get _firstRun.

(** Accelerate the speed from speedFrom to speedTo in steps of 1; each
    step takes msWait milliseconds.  A block of the method that returns
    yields [Some b]; [None] is control falling through to the next
    statement. *)
Definition accelerate (speedFrom speedTo msWait : Z) : M bool :=
  first <- get _firstRun ;;
  when first
    (modify (with_sp speedFrom) ;;
     t <- ticks_ms ;;
     modify (with_msPrevious t) ;;
     when (speedFrom <? speedTo) (modify (with_accelMode 0)) ;;
     when (speedFrom >? speedTo) (modify (with_accelMode 1)) ;;
     when (speedFrom =? speedTo) (modify (with_accelMode 2)) ;;
     modify (with_firstRun false)) ;;
  sp <- get _sp ;;
  run sp ;;
  mode0 <- get _accelMode ;;
  r0 <- (if mode0 =? 0 then                     (* speed up *)
           sp0 <- get _sp ;;
           if sp0 <=? speedTo then
             ms <- ticks_ms ;;
             prev <- get _msPrevious ;;
             when (ms - prev >? msWait)
               (modify (with_msPrevious ms) ;;
                cur <- get _sp ;;
                modify (with_sp (cur + 1))) ;;
             ret None
           else
             modify (with_firstRun true) ;;
             ret (Some true)
         else ret None) ;;
  match r0 with
  | Some b => ret b
  | None =>
    mode1 <- get _accelMode ;;
    r1 <- (if mode1 =? 1 then                   (* slow down *)
             sp1 <- get _sp ;;
             if sp1 >=? speedTo then
               ms <- ticks_ms ;;
               prev <- get _msPrevious ;;
               when (ms - prev >? msWait)
                 (modify (with_msPrevious ms) ;;
                  cur <- get _sp ;;
                  modify (with_sp (cur - 1))) ;;
               ret None
             else
               modify (with_firstRun true) ;;
               ret (Some true)
           else ret None) ;;
    match r1 with
    | Some b => ret b
    | None =>
      mode2 <- get _accelMode ;;
      if mode2 =? 2 then                        (* constant speed *)
        modify (with_firstRun false) ;;
        ret true
      else ret false
    end
  end.

(** Query the motor's ID. *)
Definition id : M string := get _id.

(** ** The caller: polling *)

(** The polling loop calls an operation once per tick and looks at the
    boolean it returns; [poll op n] is [n] successive calls, with the
    results in call order. *)
Fixpoint poll (op : M bool) (n : nat) : M (list bool) :=
  match n with
  | O => ret []
  | S n' => b <- op ;; bs <- poll op n' ;; ret (b :: bs)
  end.

(** ** Vocabulary of the properties *)

(** The speeds with which [run] was entered, and the number of entries
    into [brake], along a log. *)
Fixpoint run_calls (tr : list Event) : list Z :=
  match tr with
  | [] => []
  | CallRun speed :: tr' => speed :: run_calls tr'
  | _ :: tr' => run_calls tr'
  end.

Fixpoint brake_calls (tr : list Event) : nat :=
  match tr with
  | [] => O
  | CallBrake :: tr' => S (brake_calls tr')
  | _ :: tr' => brake_calls tr'
  end.

(** The anchor timestamp a timed operation compares against when it is
    called in world [w]: the fresh reading if the motor is armed, the
    stored one otherwise; and the index of the reading it compares. *)
Definition anchor_of (w : World) : Z :=
  if _firstRun (self w) then ticks w (reads w) else _msPrevious (self w).

Definition cmp_read (w : World) : nat :=
  if _firstRun (self w) then S (reads w) else reads w.

(** The ramp speed [accelerate speedFrom _ _] drives the motor with when
    it is called in world [w]. *)
Definition ramp_speed (speedFrom : Z) (w : World) : Z :=
  if _firstRun (self w) then speedFrom else _sp (self w).

(** The levels of the two direction pins and the PWM duty. *)
Definition pins (s : DCmotor) : Z * Z := (pin_level (_pin1 s), pin_level (_pin2 s)).
Definition duty (s : DCmotor) : Z := pwm_duty (_pinPwm s).

(** The effect of [rotate], [brake] and [run] on the object, and the
    events they log. *)
Definition rotated (d : Z) (s : DCmotor) : DCmotor :=
  with_rotation (if d =? CW then CW else CCW)
    (with_pin2_value (if d =? CW then 0 else 1)
       (with_pin1_value (if d =? CW then 1 else 0) s)).

Definition rotate_events (d : Z) : list Event :=
  [CallRotate d;
   Pin1Value (if d =? CW then 1 else 0);
   Pin2Value (if d =? CW then 0 else 1)].

Definition braked (s : DCmotor) : DCmotor :=
  with_pinPwm_duty 0 (with_pin2_value 0 (with_pin1_value 0 s)).

Definition brake_events : list Event :=
  [CallBrake; Pin1Value 0; Pin2Value 0; PwmDuty 0].

Definition duty_of (speed : Z) (s : DCmotor) : Z :=
  map_value speed 0 100 (_dutyMin s) (_dutyMax s).

Definition ran (speed : Z) (s : DCmotor) : DCmotor :=
  rotated (_rotation s) (with_pinPwm_duty (duty_of speed s) s).

Definition run_events (speed : Z) (s : DCmotor) : list Event :=
  [CallRun speed; PwmDuty (duty_of speed s)] ++ rotate_events (_rotation s).


Definition modular_elapsed (P now anchor : Z) : Z := (now - anchor) mod P.

(** The period of [ticks_ms()] on the ESP8266 port of MicroPython: the
    readings lie in [0 .. TICKS_PERIOD - 1] and wrap around.  The value
    belongs to the platform; general statements take the period as a
    parameter. *)
Definition TICKS_PERIOD : Z := 2 ^ 30.

(** A motor as [main.py] constructs it, and a clock that shows [t0] at
    its first reading and advances by [dt] between two readings. *)
Definition motorA : DCmotor := init "A" 0 4 5 220.
Definition motorB : DCmotor := init "B" 13 12 14 110.

Definition steady_clock (t0 dt : Z) : nat -> Z := fun n => t0 + dt * Z.of_nat n.

(** The line [m * x + q] that [map] rounds. *)
Definition line (x inMin inMax outMin outMax : Z) : Q :=
  let m := (inject_Z (outMax - outMin) / inject_Z (inMax - inMin))%Q in
  let q := (inject_Z outMax - m * inject_Z inMax)%Q in
  (m * inject_Z x + q)%Q.

(** One call of [accelerate speedFrom speedTo msWait] in world [w] while
    the ramp runs in mode [mode] with increment [step], and is past its
    end once [passed] holds of the ramp speed:
    - [run] is entered first, once, with the ramp speed of this call;
    - the call returns [true] exactly when that speed is past [speedTo],
      and then it rearms without reading the clock again;
    - otherwise it reads the clock, and steps the ramp speed by [step] and
      moves the anchor to that reading exactly when the reading is more
      than [msWait] after the anchor. *)
Definition ramp_call (speedFrom speedTo msWait mode step : Z)
           (passed : Z -> bool) (w : World) : Prop :=
  let sp0 := ramp_speed speedFrom w in
  exists w',
    accelerate speedFrom speedTo msWait w = Ok (passed sp0, w') /\
    (exists rest,
        trace w' = trace w ++ CallRun sp0 :: rest /\ run_calls rest = []) /\
    ticks w' = ticks w /\
    _accelMode (self w') = mode /\
    if passed sp0 then
      _firstRun (self w') = true /\ _sp (self w') = sp0 /\
      reads w' = cmp_read w
    else
      _firstRun (self w') = false /\ reads w' = S (cmp_read w) /\
      if ticks w (cmp_read w) - anchor_of w >? msWait
      then _sp (self w') = sp0 + step /\
           _msPrevious (self w') = ticks w (cmp_read w)
      else _sp (self w') = sp0 /\ _msPrevious (self w') = anchor_of w.

(** A clock that wraps around between its second and its third reading:
    the anchor is taken 10 ms before the wrap, the third reading 5 ms
    after it. *)
Definition wrapping_clock : nat -> Z :=
  fun n => match n with
           | O | S O => TICKS_PERIOD - 10
           | _ => 5
           end.

(** A motor in the middle of a ramp from 0 to 100, about to be driven at
    [sp], with its anchor at 0. *)
Definition ramping (sp : Z) (clk : nat -> Z) : World :=
  mkWorld (with_sp sp (with_firstRun false motorB)) clk 1%nat [].

(** ** The callers: [main.py] *)

Definition ledBuiltin : Z := 2.
Definition ledPeriod : Z := 1000.   (* blink builtin led every second *)
Definition ledPulsewidth : Z := 50. (* for 50ms *)

(** Task for motor A: run the motor for msRun milliseconds at speed, stop
    it for msStop milliseconds, reverse the direction of rotation and
    repeat.  The global [stateA] is passed in and the new value returned. *)
Definition taskA (speed msRun msStop : Z) (stateA : Z) : M Z :=
  stateA <- (if stateA =? 0 then
               done <- runFor speed msRun ;;
               ret (if done then 1 else stateA)
             else ret stateA) ;;
  if stateA =? 1 then
    done <- waitFor msStop ;;
    if done then
      reverseRotation ;;
      ret 0
    else ret stateA
  else ret stateA.

(** Task for motor B: accelerate from 0 to 100, run at 50 for 2000 ms,
    slow down from 50 to 0, brake and reverse, wait 5000 ms, repeat. *)
Definition taskB (stateB : Z) : M Z :=
  stateB <- (if stateB =? 0 then
               done <- accelerate 0 100 60 ;;
               ret (if done then 1 else stateB)
             else ret stateB) ;;
  stateB <- (if stateB =? 1 then
               done <- runFor 50 2000 ;;
               ret (if done then 2 else stateB)
             else ret stateB) ;;
  stateB <- (if stateB =? 2 then
               done <- accelerate 50 0 100 ;;
               if done then
                 brake ;;
                 reverseRotation ;;
                 ret 3
               else ret stateB
             else ret stateB) ;;
  if stateB =? 3 then
    done <- waitFor 5000 ;;
    ret (if done then 0 else stateB)
  else ret stateB.

(** The module-level objects of [main.py]: the led pin, the two motors
    and the two task states; with them the clock both motors read, and one
    log per motor. *)
Record Board : Type := mkBoard {
  led : Pin;
  objA : DCmotor;
  objB : DCmotor;
  stateA : Z;
  stateB : Z;
  clock : nat -> Z;
  taken : nat;
  logA : list Event;
  logB : list Event
}.

Definition board0 (clk : nat -> Z) : Board :=
  mkBoard (mkPin ledBuiltin 0) motorA motorB 0 0 clk 0%nat
          (trace (init_world motorA clk)) (trace (init_world motorB clk)).

(** A method call on [motorA], resp. [motorB]. *)
Definition onA {X} (c : M X) (b : Board) : result (X * Board) :=
  match c (mkWorld (objA b) (clock b) (taken b) (logA b)) with
  | Ok (x, w) =>
      Ok (x, mkBoard (led b) (self w) (objB b) (stateA b) (stateB b)
                     (ticks w) (reads w) (trace w) (logB b))
  | Raise e => Raise e
  end.

Definition onB {X} (c : M X) (b : Board) : result (X * Board) :=
  match c (mkWorld (objB b) (clock b) (taken b) (logB b)) with
  | Ok (x, w) =>
      Ok (x, mkBoard (led b) (objA b) (self w) (stateA b) (stateB b)
                     (ticks w) (reads w) (logA b) (trace w))
  | Raise e => Raise e
  end.

(** The body of the [while True] loop. *)
Definition loop_body (b : Board) : result Board :=
  let t := clock b (taken b) in
  let level := if t mod ledPeriod <? ledPulsewidth then 0 else 1 in
  let b0 := mkBoard (mkPin (pin_id (led b)) level) (objA b) (objB b)
                    (stateA b) (stateB b) (clock b) (S (taken b))
                    (logA b) (logB b) in
  match onA (taskA 30 1000 500 (stateA b0)) b0 with
  | Ok (sA, b1) =>
      match onB (taskB (stateB b1)) b1 with
      | Ok (sB, b2) =>
          Ok (mkBoard (led b2) (objA b2) (objB b2) sA sB
                      (clock b2) (taken b2) (logA b2) (logB b2))
      | Raise e => Raise e
      end
  | Raise e => Raise e
  end.

(** [n] turns of the loop. *)
Fixpoint loop (n : nat) (b : Board) : result Board :=
  match n with
  | O => Ok b
  | S n' => match loop_body b with
            | Ok b' => loop n' b'
            | Raise e => Raise e
            end
  end.

(** [n] successive calls of a task, threading its state. *)
Fixpoint run_task (task : Z -> M Z) (n : nat) (st : Z) : M Z :=
  match n with
  | O => ret st
  | S n' => st' <- task st ;; run_task task n' st'
  end.

(** ** Programs over the class *)

(** A call of one of the methods of a motor, and a straight-line program
    of such calls. *)
Inductive Call : Type :=
| DoRun (speed : Z)
| DoRunFor (speed msToRun : Z)
| DoWaitFor (msToWait : Z)
| DoAccelerate (speedFrom speedTo msWait : Z)
| DoRotate (direction : Z)
| DoReverseRotation
| DoBrake
| DoId.

Definition exec (c : Call) : M unit :=
  match c with
  | DoRun speed => run speed
  | DoRunFor speed msToRun => runFor speed msToRun ;; ret tt
  | DoWaitFor msToWait => waitFor msToWait ;; ret tt
  | DoAccelerate speedFrom speedTo msWait =>
      accelerate speedFrom speedTo msWait ;; ret tt
  | DoRotate direction => rotate direction
  | DoReverseRotation => reverseRotation
  | DoBrake => brake
  | DoId => id ;; ret tt
  end.

Fixpoint exec_all (cs : list Call) : M unit :=
  match cs with
  | [] => ret tt
  | c :: cs' => exec c ;; exec_all cs'
  end.

(** A call that asks [run] only for speeds in [lo .. hi]: a [run] or an
    actuating [runFor] with such a speed, or a call that does not run the
    motor; a ramp chooses its own speeds and is excluded. *)
Definition asks_within (lo hi : Z) (c : Call) : Prop :=
  match c with
  | DoRun speed => lo <= speed <= hi
  | DoRunFor speed _ => speed < 0 \/ lo <= speed <= hi
  | DoAccelerate _ _ _ => False
  | _ => True
  end.

(** The two direction pins are never both high, and the stored rotation
    is one of the two constants. *)
Definition wellformed (s : DCmotor) : Prop :=
  (_rotation s = CW \/ _rotation s = CCW) /\
  (pins s = (1, 0) \/ pins s = (0, 1) \/ pins s = (0, 0)).

(** What no method assigns: the identifier, the duty bounds and the pin
    and channel bindings. *)
Definition same_config (s s' : DCmotor) : Prop :=
  _id s' = _id s /\ _dutyMin s' = _dutyMin s /\ _dutyMax s' = _dutyMax s /\
  pin_id (_pin1 s') = pin_id (_pin1 s) /\
  pin_id (_pin2 s') = pin_id (_pin2 s) /\
  pwm_pin (_pinPwm s') = pwm_pin (_pinPwm s) /\
  pwm_freq (_pinPwm s') = pwm_freq (_pinPwm s).

(** The direction [rotate] stores for an argument, and its pin pattern. *)
Definition stored_direction (d : Z) : Z := if d =? CW then CW else CCW.
Definition pattern (d : Z) : Z * Z := if d =? CW then (1, 0) else (0, 1).

(** Total correctness of a computation: from every world of [P] it
    returns normally, in a world and with a result of [Q]. *)
Definition hoare {A} (P : World -> Prop) (c : M A) (Q : A -> World -> Prop)
  : Prop :=
  forall w, P w -> exists a w', c w = Ok (a, w') /\ Q a w'.

(** The integers [first, first + 1, ...], [len] of them, and the same
    counting down. *)
Definition counting_up (first : Z) (len : nat) : list Z :=
  List.map (fun i => first + Z.of_nat i) (seq 0 len).
Definition counting_down (first : Z) (len : nat) : list Z :=
  List.map (fun i => first - Z.of_nat i) (seq 0 len).

(** ** Invariants of the main loop *)

(** Motor A under [taskA(motorA, 30, 1000, 500)]: the duty bounds of the
    constructor, exclusive pins, and a duty that is 0 or that of 30 %. *)
Definition motorA_invariant (stA : Z) (s : DCmotor) : Prop :=
  (stA = 0 \/ stA = 1) /\
  _dutyMin s = 0 /\ _dutyMax s = 1023 /\ wellformed s /\
  (duty s = 0 \/ duty s = 307).

(** Motor B under [taskB]: in the states that ramp, the motor is armed or
    in the mode of that ramp with the ramp speed at most one step outside
    the range of the ramp; the duty is between those of -1 % and 101 %. *)
Definition motorB_invariant (stB : Z) (s : DCmotor) : Prop :=
  _dutyMin s = 0 /\ _dutyMax s = 1023 /\ wellformed s /\
  -9 <= duty s <= 1033 /\
  ((stB = 0 /\ (_firstRun s = true \/
                (_accelMode s = 0 /\ 0 <= _sp s <= 101))) \/
   stB = 1 \/
   (stB = 2 /\ (_firstRun s = true \/
                (_accelMode s = 1 /\ -1 <= _sp s <= 50))) \/
   stB = 3).

(** World [w'] is [w] some readings of the same clock later. *)
Definition later_than (w w' : World) : Prop :=
  ticks w' = ticks w /\ (reads w <= reads w')%nat.

Definition board_invariant (b : Board) : Prop :=
  motorA_invariant (stateA b) (objA b) /\
  motorB_invariant (stateB b) (objB b).

(** ** Proof automation *)

(** Evaluate the monadic glue and the record projections; [run] and
    [brake] are replaced by their effect. *)
Ltac mcbv :=
  cbv [bind ret get modify emit when ticks_ms self ticks reads trace
       with_firstRun with_msPrevious with_sp with_accelMode with_rotation
       with_pin1_value with_pin2_value with_pinPwm_duty
       _id _pinPwm _pin1 _pin2 _rotation _dutyMax _dutyMin
       _firstRun _msPrevious _accelMode _sp
       pin_id pin_level pwm_pin pwm_freq pwm_duty
       ran rotated braked pins duty].

(** ** Basic equations *)

Lemma map_0_100 x a b : map x 0 100 a b = Ok (map_value x 0 100 a b).
Proof. reflexivity. Qed.

Lemma rotate_eq d w :
  rotate d w =
  Ok (tt, mkWorld (rotated d (self w)) (ticks w) (reads w)
                  (trace w ++ rotate_events d)).
Proof.
  unfold rotated, rotate_events.
  cbv [rotate bind emit pin1_value pin2_value modify self ticks reads trace].
  destruct (d =? CW); rewrite <- !app_assoc; reflexivity.
Qed.

Lemma brake_eq w :
  brake w =
  Ok (tt, mkWorld (braked (self w)) (ticks w) (reads w)
                  (trace w ++ brake_events)).
Proof.
  cbv [brake bind emit pin1_value pin2_value pinPwm_duty modify
       self ticks reads trace braked brake_events].
  rewrite <- !app_assoc. reflexivity.
Qed.

Lemma run_eq speed w :
  run speed w =
  Ok (tt, mkWorld (ran speed (self w)) (ticks w) (reads w)
                  (trace w ++ run_events speed (self w))).
Proof.
  cbv [run bind emit get raise_on self ticks reads trace].
  rewrite map_0_100.
  cbv [pinPwm_duty bind modify emit self ticks reads trace].
  rewrite rotate_eq. unfold ran, run_events, duty_of. cbn.
  rewrite <- !app_assoc. reflexivity.
Qed.

Lemma run_calls_app tr1 tr2 :
  run_calls (tr1 ++ tr2) = run_calls tr1 ++ run_calls tr2.
Proof.
  induction tr1 as [|e tr1 IH]; [reflexivity|].
  destruct e; cbn; rewrite IH; reflexivity.
Qed.

Lemma brake_calls_app tr1 tr2 :
  brake_calls (tr1 ++ tr2) = (brake_calls tr1 + brake_calls tr2)%nat.
Proof.
  induction tr1 as [|e tr1 IH]; [reflexivity|].
  destruct e; cbn; rewrite IH; reflexivity.
Qed.

Lemma run_calls_rotate_events d : run_calls (rotate_events d) = [].
Proof. reflexivity. Qed.

Lemma brake_calls_rotate_events d : brake_calls (rotate_events d) = O.
Proof. reflexivity. Qed.

Lemma run_calls_run_events speed s : run_calls (run_events speed s) = [speed].
Proof.
  unfold run_events. rewrite run_calls_app, run_calls_rotate_events.
  reflexivity.
Qed.

Lemma brake_calls_run_events speed s : brake_calls (run_events speed s) = O.
Proof.
  unfold run_events. rewrite brake_calls_app, brake_calls_rotate_events.
  reflexivity.
Qed.

Ltac mrun := mcbv; repeat (first [rewrite run_eq | rewrite brake_eq]; mcbv).

(** ** [map]: truncation, rounding and monotonicity *)

Lemma map_eq x inMin inMax outMin outMax :
  inMin <> inMax ->
  map x inMin inMax outMin outMax =
  Ok (trunc (line x inMin inMax outMin outMax + (1 # 2))%Q).
Proof.
  intros H. unfold map, line.
  destruct (inMax - inMin =? 0) eqn:E; [lia|reflexivity].
Qed.

Lemma map_value_eq x inMin inMax outMin outMax :
  inMin <> inMax ->
  map_value x inMin inMax outMin outMax =
  trunc (line x inMin inMax outMin outMax + (1 # 2))%Q.
Proof. intros H. unfold map_value. rewrite map_eq by assumption. reflexivity. Qed.

Lemma trunc_nonneg v : (0 <= v)%Q -> trunc v = Qfloor v.
Proof.
  destruct v as [n d]. unfold Qle, trunc, Qfloor. cbn [Qnum Qden].
  intros H. apply Z.quot_div_nonneg; lia.
Qed.

Lemma trunc_nonpos v : (v <= 0)%Q -> trunc v = Qceiling v.
Proof.
  destruct v as [n d]. unfold Qle, trunc, Qceiling, Qfloor, Qopp.
  cbn [Qnum Qden]. intros H.
  rewrite <- (Z.opp_involutive n) at 1.
  rewrite Z.quot_opp_l by lia.
  rewrite Z.quot_div_nonneg by lia. reflexivity.
Qed.

Lemma trunc_le v1 v2 : (v1 <= v2)%Q -> trunc v1 <= trunc v2.
Proof.
  intros H.
  destruct (Qlt_le_dec v1 0) as [H1|H1]; destruct (Qlt_le_dec v2 0) as [H2|H2].
  - rewrite !trunc_nonpos by (apply Qlt_le_weak; assumption).
    apply Qceiling_resp_le; assumption.
  - rewrite (trunc_nonpos v1) by (apply Qlt_le_weak; assumption).
    rewrite (trunc_nonneg v2) by assumption.
    transitivity 0.
    + change 0 with (Qceiling 0). apply Qceiling_resp_le, Qlt_le_weak; assumption.
    + change 0 with (Qfloor 0). apply Qfloor_resp_le; assumption.
  - exfalso. apply (Qlt_irrefl 0).
    apply Qle_lt_trans with v2; [|assumption].
    apply Qle_trans with v1; assumption.
  - rewrite !trunc_nonneg by assumption. apply Qfloor_resp_le; assumption.
Qed.

Lemma trunc_comp v1 v2 : (v1 == v2)%Q -> trunc v1 = trunc v2.
Proof.
  intros H. apply Z.le_antisymm; apply trunc_le; rewrite H; apply Qle_refl.
Qed.

Lemma line_le x y inMin inMax outMin outMax :
  inMin < inMax -> outMin <= outMax -> x <= y ->
  (line x inMin inMax outMin outMax <= line y inMin inMax outMin outMax)%Q.
Proof.
  intros Hin Hout Hxy. unfold line.
  apply Qplus_le_compat; [|apply Qle_refl].
  rewrite !(Qmult_comm (inject_Z (outMax - outMin) / inject_Z (inMax - inMin))).
  apply Qmult_le_compat_r.
  - rewrite <- Zle_Qle. assumption.
  - apply Qle_shift_div_l.
    + change 0%Q with (inject_Z 0). rewrite <- Zlt_Qlt. lia.
    + rewrite Qmult_0_l. change 0%Q with (inject_Z 0). rewrite <- Zle_Qle. lia.
Qed.

Lemma map_value_monotone x y inMin inMax outMin outMax :
  inMin < inMax -> outMin <= outMax -> x <= y ->
  map_value x inMin inMax outMin outMax <= map_value y inMin inMax outMin outMax.
Proof.
  intros Hin Hout Hxy. rewrite !map_value_eq by lia.
  apply trunc_le. apply Qplus_le_compat; [|apply Qle_refl].
  apply line_le; assumption.
Qed.

Lemma map_value_low D : map_value 0 0 100 0 D = 0.
Proof.
  rewrite map_value_eq by lia.
  rewrite (trunc_comp _ (1 # 2)); [reflexivity|].
  unfold line. cbv zeta. rewrite !Z.sub_0_r. field.
Qed.

Lemma map_value_high D : 0 <= D -> map_value 100 0 100 0 D = D.
Proof.
  intros HD. rewrite map_value_eq by lia.
  rewrite (trunc_comp _ (inject_Z D + (1 # 2))%Q).
  - rewrite trunc_nonneg.
    + unfold Qfloor, Qplus, inject_Z. cbn [Qnum Qden].
      symmetry. apply (Z.div_unique _ _ _ 1); lia.
    + unfold Qle, Qplus, inject_Z. cbn [Qnum Qden]. lia.
  - unfold line. cbv zeta. rewrite !Z.sub_0_r. field.
Qed.







(** ** Direction: [rotate] and [reverseRotation] *)

(** C10: for every direction argument [d], [rotate d] returns normally;
    if [d] is the CW constant it sets pin1 high, pin2 low and stores CW,
    and for every other [d] it sets pin1 low, pin2 high and stores CCW.
    Nothing else of the object changes, and the two pin writes are the
    only hardware writes. *)
Theorem rotate_sets_exclusive_pins d w :
  exists w',
    rotate d w = Ok (tt, w') /\
    pins (self w') = (if d =? CW then (1, 0) else (0, 1)) /\
    _rotation (self w') = (if d =? CW then CW else CCW) /\
    trace w' = trace w ++ [CallRotate d;
                           Pin1Value (if d =? CW then 1 else 0);
                           Pin2Value (if d =? CW then 0 else 1)] /\
    duty (self w') = duty (self w) /\
    self w' = with_rotation (if d =? CW then CW else CCW)
                (with_pin2_value (if d =? CW then 0 else 1)
                   (with_pin1_value (if d =? CW then 1 else 0) (self w))) /\
    (pins (self w') = (1, 0) \/ pins (self w') = (0, 1)).
Proof.
  eexists. split; [apply rotate_eq|].
  destruct w as [s clk r tr].
  destruct s as [i pwm p1 p2 rot dmax dmin fr prev mode sp].
  unfold rotate_events. mcbv. destruct (d =? CW); cbn [fst snd]; repeat split.
  - left; reflexivity.
  - right; reflexivity.
Qed.

(** C9: [reverseRotation] changes the stored rotation and nothing else:
    the pins, the PWM duty and the log of hardware writes are as before;
    a stored CW becomes CCW and a stored CCW becomes CW; the next [run]
    puts the pins in the pattern of the flipped direction. *)
Theorem reverseRotation_changes_rotation_only w :
  let flipped := if _rotation (self w) =? CCW then CW else CCW in
  exists w',
    reverseRotation w = Ok (tt, w') /\
    w' = mkWorld (with_rotation flipped (self w)) (ticks w) (reads w) (trace w) /\
    pins (self w') = pins (self w) /\
    duty (self w') = duty (self w) /\
    trace w' = trace w /\
    _rotation (self w') = flipped /\
    (forall speed, exists w'',
        run speed w' = Ok (tt, w'') /\
        pins (self w'') = (if flipped =? CW then (1, 0) else (0, 1)) /\
        _rotation (self w'') = flipped) /\
    (forall d speed, exists w1 w2 w3,
        rotate d w = Ok (tt, w1) /\
        reverseRotation w1 = Ok (tt, w2) /\
        pins (self w2) = (if d =? CW then (1, 0) else (0, 1)) /\
        _rotation (self w2) = (if d =? CW then CCW else CW) /\
        run speed w2 = Ok (tt, w3) /\
        pins (self w3) = (if d =? CW then (0, 1) else (1, 0))).
Proof.
  cbv zeta. eexists. split; [reflexivity|].
  destruct w as [s clk r tr].
  destruct s as [i pwm p1 p2 rot dmax dmin fr prev mode sp].
  mcbv. repeat split.
  - intros speed. eexists. split; [apply run_eq|]. mcbv.
    destruct (rot =? CCW); split; reflexivity.
  - intros d speed. do 3 eexists.
    split; [apply rotate_eq|]. split; [reflexivity|]. mcbv.
    split; [destruct (d =? CW); reflexivity|].
    split; [destruct (d =? CW); reflexivity|].
    split; [apply run_eq|]. mcbv.
    destruct (d =? CW); reflexivity.
Qed.

(** ** One call of a timed operation *)

Ltac tr_simpl :=
  rewrite ?run_calls_app, ?brake_calls_app, ?run_calls_run_events,
    ?brake_calls_run_events, ?app_nil_r, ?Nat.add_0_r;
  cbn [run_calls brake_calls brake_events app Nat.add].

Lemma runFor_call speed msToRun w :
  let expired := ticks w (cmp_read w) - anchor_of w >? msToRun in
  exists w',
    runFor speed msToRun w = Ok (expired, w') /\
    _firstRun (self w') = expired /\
    _msPrevious (self w') = anchor_of w /\
    ticks w' = ticks w /\
    reads w' = S (cmp_read w) /\
    run_calls (trace w') =
      run_calls (trace w) ++ (if speed >=? 0 then [speed] else []) /\
    brake_calls (trace w') =
      (brake_calls (trace w) + (if expired then 1 else 0))%nat /\
    (if expired then pins (self w') = (0, 0) /\ duty (self w') = 0
     else True).
Proof.
  cbv zeta. destruct w as [s clk r tr]. unfold anchor_of, cmp_read.
  destruct s as [i pwm p1 p2 rot dmax dmin fr prev mode sp].
  cbn [self ticks reads trace _firstRun _msPrevious].
  unfold runFor.
  destruct fr; cbv iota;
  match goal with
  | |- context [?a - ?b >? msToRun] => destruct (a - b >? msToRun) eqn:He
  end;
  destruct (speed >=? 0) eqn:Hs;
  mrun; rewrite ?He; mrun;
  (eexists; split; [reflexivity|]); mcbv; tr_simpl;
  repeat split; try reflexivity.
  all: rewrite Nat.add_comm; reflexivity.
Qed.

Lemma waitFor_call msToWait w :
  let expired := ticks w (cmp_read w) - anchor_of w >? msToWait in
  exists w',
    waitFor msToWait w = Ok (expired, w') /\
    _firstRun (self w') = expired /\
    _msPrevious (self w') = anchor_of w /\
    ticks w' = ticks w /\
    reads w' = S (cmp_read w) /\
    trace w' = trace w ++ (if _firstRun (self w) then brake_events else []) /\
    (if _firstRun (self w)
     then pins (self w') = (0, 0) /\ duty (self w') = 0
     else pins (self w') = pins (self w) /\ duty (self w') = duty (self w)).
Proof.
  cbv zeta. destruct w as [s clk r tr]. unfold anchor_of, cmp_read.
  destruct s as [i pwm p1 p2 rot dmax dmin fr prev mode sp].
  cbn [self ticks reads trace _firstRun _msPrevious].
  unfold waitFor.
  destruct fr; cbv iota;
  match goal with
  | |- context [?a - ?b >? msToWait] => destruct (a - b >? msToWait) eqn:He
  end;
  mrun; rewrite ?He; mrun;
  (eexists; split; [reflexivity|]); mcbv; rewrite ?app_nil_r;
  repeat split; reflexivity.
Qed.

Ltac ramp_done :=
  (eexists; split; [reflexivity|]); mcbv;
  repeat split; try reflexivity;
  eexists; split; [unfold run_events; cbn [app]; reflexivity|reflexivity].

Lemma accelerate_up_call speedFrom speedTo msWait w :
  speedFrom < speedTo ->
  _firstRun (self w) = true \/ _accelMode (self w) = 0 ->
  ramp_call speedFrom speedTo msWait 0 1 (fun sp => speedTo <? sp) w.
Proof.
  intros Hlt Hinv. unfold ramp_call, ramp_speed, anchor_of, cmp_read.
  destruct w as [s clk r tr].
  destruct s as [i pwm p1 p2 rot dmax dmin fr prev mode sp].
  cbn [self ticks reads trace _firstRun _msPrevious _sp _accelMode] in *.
  unfold accelerate.
  assert (Hc1 : (speedFrom <? speedTo) = true) by lia.
  assert (Hc2 : (speedFrom >? speedTo) = false) by lia.
  assert (Hc3 : (speedFrom =? speedTo) = false) by lia.
  destruct fr.
  - cbv iota zeta. mcbv. rewrite Hc1, Hc2, Hc3. mrun.
    cbv iota beta. cbn [Z.eqb].
    destruct (speedTo <? speedFrom) eqn:Hp; [lia|].
    assert (Hw : (speedFrom <=? speedTo) = true) by lia. rewrite Hw. mrun.
    destruct (clk (S r) - clk r >? msWait) eqn:He; mrun; ramp_done.
  - destruct Hinv as [Hinv|Hinv]; [discriminate|subst mode].
    cbv iota zeta. mrun. cbn [Z.eqb]. cbv iota beta.
    destruct (speedTo <? sp) eqn:Hp.
    + assert (Hw : (sp <=? speedTo) = false) by lia. rewrite Hw. mrun.
      ramp_done.
    + assert (Hw : (sp <=? speedTo) = true) by lia. rewrite Hw. mrun.
      destruct (clk r - prev >? msWait) eqn:He; mrun; ramp_done.
Qed.

Lemma accelerate_down_call speedFrom speedTo msWait w :
  speedFrom > speedTo ->
  _firstRun (self w) = true \/ _accelMode (self w) = 1 ->
  ramp_call speedFrom speedTo msWait 1 (-1) (fun sp => sp <? speedTo) w.
Proof.
  intros Hlt Hinv. unfold ramp_call, ramp_speed, anchor_of, cmp_read.
  destruct w as [s clk r tr].
  destruct s as [i pwm p1 p2 rot dmax dmin fr prev mode sp].
  cbn [self ticks reads trace _firstRun _msPrevious _sp _accelMode] in *.
  unfold accelerate.
  assert (Hc1 : (speedFrom <? speedTo) = false) by lia.
  assert (Hc2 : (speedFrom >? speedTo) = true) by lia.
  assert (Hc3 : (speedFrom =? speedTo) = false) by lia.
  destruct fr.
  - cbv iota zeta. mcbv. rewrite Hc1, Hc2, Hc3. mrun.
    cbv iota beta. cbn [Z.eqb Pos.eqb]. mrun.
    destruct (speedFrom <? speedTo) eqn:Hp; [lia|].
    assert (Hw : (speedFrom >=? speedTo) = true) by lia. rewrite Hw. mrun.
    destruct (clk (S r) - clk r >? msWait) eqn:He; mrun; ramp_done.
  - destruct Hinv as [Hinv|Hinv]; [discriminate|subst mode].
    cbv iota zeta. mrun. cbn [Z.eqb Pos.eqb]. cbv iota beta. mrun.
    destruct (sp <? speedTo) eqn:Hp.
    + assert (Hw : (sp >=? speedTo) = false) by lia. rewrite Hw. mrun.
      ramp_done.
    + assert (Hw : (sp >=? speedTo) = true) by lia. rewrite Hw. mrun.
      destruct (clk r - prev >? msWait) eqn:He; mrun; ramp_done.
Qed.

(** The constant mode: the call drives the motor once at [speed], returns
    [true] and leaves [_firstRun] cleared. *)
Lemma accelerate_constant_call speed msWait w :
  _firstRun (self w) = true \/ _accelMode (self w) = 2 ->
  exists w',
    accelerate speed speed msWait w = Ok (true, w') /\
    _firstRun (self w') = false /\
    _accelMode (self w') = 2 /\
    run_calls (trace w') = run_calls (trace w) ++ [ramp_speed speed w].
Proof.
  intros Hinv. unfold ramp_speed.
  destruct w as [s clk r tr].
  destruct s as [i pwm p1 p2 rot dmax dmin fr prev mode sp].
  cbn [self ticks reads trace _firstRun _msPrevious _sp _accelMode] in *.
  unfold accelerate.
  assert (Hc1 : (speed <? speed) = false) by lia.
  assert (Hc2 : (speed >? speed) = false) by lia.
  assert (Hc3 : (speed =? speed) = true) by lia.
  destruct fr.
  - cbv iota zeta. mcbv. rewrite Hc1, Hc2, Hc3. mrun.
    cbv iota beta. cbn [Z.eqb Pos.eqb]. mrun.
    eexists; split; [reflexivity|]; mcbv; tr_simpl. repeat split.
  - destruct Hinv as [Hinv|Hinv]; [discriminate|subst mode].
    cbv iota zeta. mrun. cbn [Z.eqb Pos.eqb]. cbv iota beta. mrun.
    eexists; split; [reflexivity|]; mcbv; tr_simpl. repeat split.
Qed.

(** ** Polling *)

Lemma poll_S op n w :
  poll op (S n) w =
  match op w with
  | Ok (b, w1) =>
      match poll op n w1 with
      | Ok (bs, w2) => Ok (b :: bs, w2)
      | Raise e => Raise e
      end
  | Raise e => Raise e
  end.
Proof.
  cbn [poll]. unfold bind, ret. destruct (op w) as [[b w1]|e]; reflexivity.
Qed.

Lemma poll_snoc op n : forall w bs w1 b w2,
  poll op n w = Ok (bs, w1) -> op w1 = Ok (b, w2) ->
  poll op (S n) w = Ok (bs ++ [b], w2).
Proof.
  induction n as [|n IH]; intros w bs w1 b w2 Hp Ho.
  - cbn in Hp. unfold ret in Hp. injection Hp as <- <-.
    rewrite poll_S, Ho. reflexivity.
  - rewrite poll_S in Hp. rewrite poll_S.
    destruct (op w) as [[b0 w0]|e]; [|discriminate].
    destruct (poll op n w0) as [[bs0 w3]|e] eqn:Hn; [|discriminate].
    injection Hp as <- <-.
    rewrite (IH _ _ _ _ _ Hn Ho). reflexivity.
Qed.

(** An operation that returns normally from every world of an invariant
    set, and stays in the set, can be polled any number of times. *)
Lemma poll_invariant op (I : World -> Prop) :
  (forall w, I w -> exists b w', op w = Ok (b, w') /\ I w') ->
  forall n w, I w -> exists bs w', poll op n w = Ok (bs, w') /\ I w'.
Proof.
  intros Hop. induction n as [|n IH]; intros w Hw.
  - exists [], w. split; [reflexivity|assumption].
  - destruct (Hop w Hw) as (b & w1 & Hb & H1).
    destruct (IH w1 H1) as (bs & w2 & Hbs & H2).
    exists (b :: bs), w2. rewrite poll_S, Hb, Hbs. split; [reflexivity|assumption].
Qed.

(** While the reading compared by each call is at most [msToRun] after the
    anchor, every call of [runFor] returns [false], the anchor stays, and
    [brake] is not entered. *)
Lemma runFor_polls_false speed msToRun : forall k w,
  (forall j, (j < k)%nat ->
             ticks w (cmp_read w + j) - anchor_of w <= msToRun) ->
  exists wk,
    poll (runFor speed msToRun) k w = Ok (repeat false k, wk) /\
    anchor_of wk = anchor_of w /\
    cmp_read wk = (cmp_read w + k)%nat /\
    ticks wk = ticks w /\
    run_calls (trace wk) =
      run_calls (trace w) ++ (if speed >=? 0 then repeat speed k else []) /\
    brake_calls (trace wk) = brake_calls (trace w).
Proof.
  induction k as [|k IH]; intros w H.
  - exists w. cbn [poll repeat]. rewrite Nat.add_0_r.
    destruct (speed >=? 0); rewrite app_nil_r; repeat split; reflexivity.
  - destruct (runFor_call speed msToRun w)
      as (w1 & Hc & Hf & Hp & Ht & Hr & Hrc & Hbc & _).
    assert (He : (ticks w (cmp_read w) - anchor_of w >? msToRun) = false).
    { specialize (H O ltac:(lia)). rewrite Nat.add_0_r in H. lia. }
    rewrite He in *.
    assert (Ha1 : anchor_of w1 = anchor_of w)
      by (unfold anchor_of at 1; rewrite Hf; exact Hp).
    assert (Hc1 : cmp_read w1 = S (cmp_read w))
      by (unfold cmp_read at 1; rewrite Hf; exact Hr).
    destruct (IH w1) as (wk & Hpk & Hak & Hck & Htk & Hrk & Hbk).
    { intros j Hj. rewrite Ha1, Hc1, Ht. specialize (H (S j) ltac:(lia)).
      rewrite Nat.add_succ_r in H. exact H. }
    exists wk. rewrite poll_S, Hc, Hpk. cbn [repeat].
    repeat split.
    + congruence.
    + rewrite Hck, Hc1. lia.
    + congruence.
    + rewrite Hrk, Hrc, <- app_assoc. destruct (speed >=? 0); reflexivity.
    + rewrite Hbk, Hbc. lia.
Qed.

(** The same for [waitFor]; the only writes are those of the [brake] of
    the first call of an armed motor. *)
Lemma waitFor_polls_false msToWait : forall k w,
  (forall j, (j < k)%nat ->
             ticks w (cmp_read w + j) - anchor_of w <= msToWait) ->
  let braking := _firstRun (self w) && negb (k =? 0)%nat in
  exists wk,
    poll (waitFor msToWait) k w = Ok (repeat false k, wk) /\
    anchor_of wk = anchor_of w /\
    cmp_read wk = (cmp_read w + k)%nat /\
    ticks wk = ticks w /\
    _firstRun (self wk) = _firstRun (self w) && (k =? 0)%nat /\
    trace wk = trace w ++ (if braking then brake_events else []) /\
    (if braking
     then pins (self wk) = (0, 0) /\ duty (self wk) = 0
     else pins (self wk) = pins (self w) /\ duty (self wk) = duty (self w)).
Proof.
  induction k as [|k IH]; intros w H; cbv zeta.
  - exists w. cbn [poll repeat Nat.eqb negb].
    rewrite Nat.add_0_r, andb_false_r, andb_true_r.
    rewrite app_nil_r. repeat split; reflexivity.
  - destruct (waitFor_call msToWait w)
      as (w1 & Hc & Hf & Hp & Ht & Hr & Htr & Hpins).
    assert (He : (ticks w (cmp_read w) - anchor_of w >? msToWait) = false).
    { specialize (H O ltac:(lia)). rewrite Nat.add_0_r in H. lia. }
    rewrite He in *.
    assert (Ha1 : anchor_of w1 = anchor_of w)
      by (unfold anchor_of at 1; rewrite Hf; exact Hp).
    assert (Hc1 : cmp_read w1 = S (cmp_read w))
      by (unfold cmp_read at 1; rewrite Hf; exact Hr).
    destruct (IH w1) as (wk & Hpk & Hak & Hck & Htk & Hfk & Htrk & Hpk1).
    { intros j Hj. rewrite Ha1, Hc1, Ht. specialize (H (S j) ltac:(lia)).
      rewrite Nat.add_succ_r in H. exact H. }
    rewrite Hf in Hfk, Htrk, Hpk1. cbn [andb] in Hfk, Htrk, Hpk1.
    rewrite app_nil_r in Htrk. destruct Hpk1 as [Hpk1 Hdk].
    exists wk. rewrite poll_S, Hc, Hpk. cbn [repeat Nat.eqb negb].
    rewrite andb_true_r, andb_false_r.
    repeat split.
    + congruence.
    + rewrite Hck, Hc1. lia.
    + congruence.
    + exact Hfk.
    + congruence.
    + destruct (_firstRun (self w)); destruct Hpins; split; congruence.
Qed.

(** ** The cycles of [runFor] and [waitFor] *)

(** C4: [runFor speed msToRun] polled from an armed motor.  Let the anchor
    be the reading the first call takes, and let the reading compared by
    each of the first [n] calls be at most [msToRun] after it and the one
    compared by the next call more than [msToRun] after it.  Then
    - the first call stores the anchor;
    - the first [n] calls return [false], enter [run speed] once each if
      [speed >= 0] and not at all otherwise, and do not enter [brake];
    - call [n + 1] returns [true], having entered [run] under the same
      condition and then [brake]: both pins are low, the duty is 0 and the
      motor is armed again;
    - the call after that takes a fresh anchor. *)
Theorem runFor_cycle speed msToRun w n :
  _firstRun (self w) = true ->
  (forall j, (j < n)%nat ->
             ticks w (S (reads w) + j) - ticks w (reads w) <= msToRun) ->
  ticks w (S (reads w) + n) - ticks w (reads w) > msToRun ->
  (exists b1 w1,
      runFor speed msToRun w = Ok (b1, w1) /\
      _msPrevious (self w1) = ticks w (reads w)) /\
  (exists wn,
      poll (runFor speed msToRun) n w = Ok (repeat false n, wn) /\
      run_calls (trace wn) =
        run_calls (trace w) ++ (if speed >=? 0 then repeat speed n else []) /\
      brake_calls (trace wn) = brake_calls (trace w)) /\
  (exists w',
      poll (runFor speed msToRun) (S n) w = Ok (repeat false n ++ [true], w') /\
      run_calls (trace w') =
        run_calls (trace w) ++
        (if speed >=? 0 then repeat speed (S n) else []) /\
      brake_calls (trace w') = S (brake_calls (trace w)) /\
      pins (self w') = (0, 0) /\ duty (self w') = 0 /\
      _msPrevious (self w') = ticks w (reads w) /\
      _firstRun (self w') = true /\
      forall speed' msToRun', exists b w'',
        runFor speed' msToRun' w' = Ok (b, w'') /\
        _msPrevious (self w'') = ticks w' (reads w')).
Proof.
  intros Harmed Hfalse Htrue.
  assert (Ha : anchor_of w = ticks w (reads w))
    by (unfold anchor_of; rewrite Harmed; reflexivity).
  assert (Hc : cmp_read w = S (reads w))
    by (unfold cmp_read; rewrite Harmed; reflexivity).
  split; [|split].
  - destruct (runFor_call speed msToRun w) as (w1 & H1 & _ & Hp & _).
    eexists _, w1. split; [exact H1|]. rewrite Hp. exact Ha.
  - destruct (runFor_polls_false speed msToRun n w)
      as (wn & Hpn & _ & _ & _ & Hrn & Hbn).
    { intros j Hj. rewrite Ha, Hc. apply Hfalse; assumption. }
    exists wn. repeat split; assumption.
  - destruct (runFor_polls_false speed msToRun n w)
      as (wn & Hpn & Han & Hcn & Htn & Hrn & Hbn).
    { intros j Hj. rewrite Ha, Hc. apply Hfalse; assumption. }
    destruct (runFor_call speed msToRun wn)
      as (w' & Hl & Hf & Hp & Ht & Hr & Hrc & Hbc & Hpins).
    assert (He : (ticks wn (cmp_read wn) - anchor_of wn >? msToRun) = true).
    { rewrite Han, Hcn, Htn, Ha, Hc. lia. }
    rewrite He in *. destruct Hpins as [Hpins Hduty].
    exists w'. split; [exact (poll_snoc _ _ _ _ _ _ _ Hpn Hl)|].
    repeat split; try assumption.
    + rewrite Hrc, Hrn, <- app_assoc.
      destruct (speed >=? 0); [|reflexivity].
      change (repeat speed (S n)) with (speed :: repeat speed n).
      rewrite repeat_cons. reflexivity.
    + rewrite Hbc, Hbn. lia.
    + rewrite Hp, Han. exact Ha.
    + intros speed' msToRun'.
      destruct (runFor_call speed' msToRun' w') as (w'' & H2 & _ & Hp2 & _).
      eexists _, w''. split; [exact H2|].
      rewrite Hp2. unfold anchor_of. rewrite Hf. reflexivity.
Qed.

(** C6: [waitFor msToWait] polled from an armed motor, with the same
    reading of "elapsed" as for [runFor].  The first call enters [brake]
    (both pins low, duty 0) and stores the anchor; the first [n] calls
    return [false]; call [n + 1] returns [true] and arms the motor again;
    over the whole cycle, and over every prefix of it, the writes of that
    one [brake] are all that is written. *)
Theorem waitFor_cycle msToWait w n :
  _firstRun (self w) = true ->
  (forall j, (j < n)%nat ->
             ticks w (S (reads w) + j) - ticks w (reads w) <= msToWait) ->
  ticks w (S (reads w) + n) - ticks w (reads w) > msToWait ->
  (exists b1 w1,
      waitFor msToWait w = Ok (b1, w1) /\
      trace w1 = trace w ++ brake_events /\
      brake_calls (trace w1) = S (brake_calls (trace w)) /\
      pins (self w1) = (0, 0) /\ duty (self w1) = 0 /\
      _msPrevious (self w1) = ticks w (reads w)) /\
  (forall k, (0 < k <= n)%nat -> exists wk,
      poll (waitFor msToWait) k w = Ok (repeat false k, wk) /\
      trace wk = trace w ++ brake_events) /\
  (exists w',
      poll (waitFor msToWait) (S n) w = Ok (repeat false n ++ [true], w') /\
      trace w' = trace w ++ brake_events /\
      brake_calls (trace w') = S (brake_calls (trace w)) /\
      _msPrevious (self w') = ticks w (reads w) /\
      _firstRun (self w') = true /\
      forall msToWait', exists b w'',
        waitFor msToWait' w' = Ok (b, w'') /\
        _msPrevious (self w'') = ticks w' (reads w') /\
        trace w'' = trace w' ++ brake_events).
Proof.
  intros Harmed Hfalse Htrue.
  assert (Ha : anchor_of w = ticks w (reads w))
    by (unfold anchor_of; rewrite Harmed; reflexivity).
  assert (Hc : cmp_read w = S (reads w))
    by (unfold cmp_read; rewrite Harmed; reflexivity).
  assert (Hbe : forall tr, brake_calls (tr ++ brake_events) = S (brake_calls tr)).
  { intros tr. rewrite brake_calls_app. cbn. lia. }
  split; [|split].
  - destruct (waitFor_call msToWait w) as (w1 & H1 & _ & Hp & _ & _ & Htr & Hpins).
    rewrite Harmed in Htr, Hpins. destruct Hpins as [Hpins Hduty].
    eexists _, w1. split; [exact H1|].
    repeat split; try assumption.
    + rewrite Htr. apply Hbe.
    + rewrite Hp. exact Ha.
  - intros k Hk.
    destruct (waitFor_polls_false msToWait k w)
      as (wk & Hpk & _ & _ & _ & _ & Htk & _).
    { intros j Hj. rewrite Ha, Hc. apply Hfalse; lia. }
    exists wk. split; [exact Hpk|].
    rewrite Htk, Harmed. destruct k; [lia|reflexivity].
  - destruct (waitFor_polls_false msToWait n w)
      as (wn & Hpn & Han & Hcn & Htn & Hfn & Htrn & _).
    { intros j Hj. rewrite Ha, Hc. apply Hfalse; assumption. }
    destruct (waitFor_call msToWait wn)
      as (w' & Hl & Hf & Hp & Ht & Hr & Htr & _).
    assert (He : (ticks wn (cmp_read wn) - anchor_of wn >? msToWait) = true).
    { rewrite Han, Hcn, Htn, Ha, Hc. lia. }
    rewrite He in *.
    assert (Htr' : trace w' = trace w ++ brake_events).
    { rewrite Htr, Htrn, Hfn, Harmed. cbn [andb].
      destruct n; cbn [Nat.eqb negb]; rewrite app_nil_r; reflexivity. }
    exists w'. split; [exact (poll_snoc _ _ _ _ _ _ _ Hpn Hl)|].
    repeat split; try assumption.
    + rewrite Htr'. apply Hbe.
    + rewrite Hp, Han. exact Ha.
    + intros msToWait'.
      destruct (waitFor_call msToWait' w') as (w'' & H2 & _ & Hp2 & _ & _ & Htr2 & _).
      eexists _, w''. split; [exact H2|]. split.
      * rewrite Hp2. unfold anchor_of. rewrite Hf. reflexivity.
      * rewrite Htr2, Hf. reflexivity.
Qed.

Lemma runFor_cycle_witness :
  let w := init_world motorA (steady_clock 0 400) in
  _firstRun (self w) = true /\
  (forall j, (j < 2)%nat ->
             ticks w (S (reads w) + j) - ticks w (reads w) <= 1000) /\
  ticks w (S (reads w) + 2) - ticks w (reads w) > 1000 /\
  exists w',
    poll (runFor 30 1000) 3 w = Ok ([false; false; true], w') /\
    pins (self w') = (0, 0).
Proof.
  cbv zeta.
  assert (H1 : _firstRun (self (init_world motorA (steady_clock 0 400))) = true)
    by reflexivity.
  assert (H2 : forall j, (j < 2)%nat ->
             ticks (init_world motorA (steady_clock 0 400))
                   (S (reads (init_world motorA (steady_clock 0 400))) + j) -
             ticks (init_world motorA (steady_clock 0 400))
                   (reads (init_world motorA (steady_clock 0 400))) <= 1000).
  { intros j Hj. destruct j as [|[|j]]; [vm_compute; discriminate ..|lia]. }
  assert (H3 : ticks (init_world motorA (steady_clock 0 400))
                     (S (reads (init_world motorA (steady_clock 0 400))) + 2) -
               ticks (init_world motorA (steady_clock 0 400))
                     (reads (init_world motorA (steady_clock 0 400))) > 1000)
    by reflexivity.
  repeat split; try assumption.
  destruct (runFor_cycle 30 1000 _ 2 H1 H2 H3)
    as (_ & _ & w' & Hp & _ & _ & Hpins & _).
  exists w'. split; assumption.
Defined.

Lemma waitFor_cycle_witness :
  let w := init_world motorA (steady_clock 0 200) in
  _firstRun (self w) = true /\
  (forall j, (j < 2)%nat ->
             ticks w (S (reads w) + j) - ticks w (reads w) <= 500) /\
  ticks w (S (reads w) + 2) - ticks w (reads w) > 500 /\
  exists w',
    poll (waitFor 500) 3 w = Ok ([false; false; true], w') /\
    trace w' = trace w ++ brake_events.
Proof.
  cbv zeta.
  assert (H1 : _firstRun (self (init_world motorA (steady_clock 0 200))) = true)
    by reflexivity.
  assert (H2 : forall j, (j < 2)%nat ->
             ticks (init_world motorA (steady_clock 0 200))
                   (S (reads (init_world motorA (steady_clock 0 200))) + j) -
             ticks (init_world motorA (steady_clock 0 200))
                   (reads (init_world motorA (steady_clock 0 200))) <= 500).
  { intros j Hj. destruct j as [|[|j]]; [vm_compute; discriminate ..|lia]. }
  assert (H3 : ticks (init_world motorA (steady_clock 0 200))
                     (S (reads (init_world motorA (steady_clock 0 200))) + 2) -
               ticks (init_world motorA (steady_clock 0 200))
                     (reads (init_world motorA (steady_clock 0 200))) > 500)
    by reflexivity.
  repeat split; try assumption.
  destruct (waitFor_cycle 500 _ 2 H1 H2 H3) as (_ & _ & w' & Hp & Htr & _).
  exists w'. split; assumption.
Defined.

(** ** The ramp of [accelerate] *)

(** C5: after any number of polls of [accelerate speedFrom speedTo msWait]
    from an armed motor, the next call is one call of the ramp (see
    [ramp_call]): for [speedFrom < speedTo] it enters [run] with the ramp
    speed first, adds exactly 1 to the ramp speed and resets the anchor
    when the reading is more than [msWait] after the anchor, and returns
    [true] (rearming) exactly when the ramp speed is above [speedTo]; for
    [speedFrom > speedTo] the same with 1 subtracted, returning [true]
    exactly when the ramp speed is below [speedTo]. *)
Theorem accelerate_ramp speedFrom speedTo msWait w k :
  _firstRun (self w) = true ->
  exists bs wk,
    poll (accelerate speedFrom speedTo msWait) k w = Ok (bs, wk) /\
    (speedFrom < speedTo ->
     ramp_call speedFrom speedTo msWait 0 1 (fun sp => speedTo <? sp) wk) /\
    (speedFrom > speedTo ->
     ramp_call speedFrom speedTo msWait 1 (-1) (fun sp => sp <? speedTo) wk).
Proof.
  intros Harmed.
  destruct (Z.lt_trichotomy speedFrom speedTo) as [Hlt|[Heq|Hgt]].
  - destruct (poll_invariant (accelerate speedFrom speedTo msWait)
                (fun w => _firstRun (self w) = true \/ _accelMode (self w) = 0))
      with (n := k) (w := w) as (bs & wk & Hp & Hk).
    + intros w0 H0.
      destruct (accelerate_up_call speedFrom speedTo msWait w0 Hlt H0)
        as (w' & Hc & _ & _ & Hm & _).
      eexists _, w'. split; [exact Hc|right; exact Hm].
    + left; exact Harmed.
    + exists bs, wk. split; [exact Hp|]. split; [|lia].
      intros _. apply accelerate_up_call; assumption.
  - subst speedTo.
    destruct (poll_invariant (accelerate speedFrom speedFrom msWait)
                (fun w => _firstRun (self w) = true \/ _accelMode (self w) = 2))
      with (n := k) (w := w) as (bs & wk & Hp & Hk).
    + intros w0 H0.
      destruct (accelerate_constant_call speedFrom msWait w0 H0)
        as (w' & Hc & _ & Hm & _).
      eexists _, w'. split; [exact Hc|right; exact Hm].
    + left; exact Harmed.
    + exists bs, wk. split; [exact Hp|]. split; lia.
  - destruct (poll_invariant (accelerate speedFrom speedTo msWait)
                (fun w => _firstRun (self w) = true \/ _accelMode (self w) = 1))
      with (n := k) (w := w) as (bs & wk & Hp & Hk).
    + intros w0 H0.
      destruct (accelerate_down_call speedFrom speedTo msWait w0 ltac:(lia) H0)
        as (w' & Hc & _ & _ & Hm & _).
      eexists _, w'. split; [exact Hc|right; exact Hm].
    + left; exact Harmed.
    + exists bs, wk. split; [exact Hp|]. split; [lia|].
      intros _. apply accelerate_down_call; [lia|assumption].
Qed.

Lemma accelerate_ramp_witness :
  let w := init_world motorB (steady_clock 0 61) in
  _firstRun (self w) = true /\ 0 < 100 /\ 50 > 0 /\
  (exists bs wk,
      poll (accelerate 0 100 60) 3 w = Ok (bs, wk) /\
      ramp_call 0 100 60 0 1 (fun sp => 100 <? sp) wk) /\
  (exists bs wk,
      poll (accelerate 50 0 100) 3 w = Ok (bs, wk) /\
      ramp_call 50 0 100 1 (-1) (fun sp => sp <? 0) wk).
Proof.
  cbv zeta.
  assert (H1 : _firstRun (self (init_world motorB (steady_clock 0 61))) = true)
    by reflexivity.
  assert (H2 : 0 < 100) by lia.
  assert (H3 : 50 > 0) by lia.
  repeat split; try assumption.
  - destruct (accelerate_ramp 0 100 60 _ 3 H1) as (bs & wk & Hp & Hup & _).
    exists bs, wk. split; [exact Hp|exact (Hup H2)].
  - destruct (accelerate_ramp 50 0 100 _ 3 H1) as (bs & wk & Hp & _ & Hdown).
    exists bs, wk. split; [exact Hp|exact (Hdown H3)].
Defined.

(** ** Completion and rearming *)

(** [runFor] and [waitFor] return the armed flag itself, and a ramp that
    returns [true] has set it: on these paths completion rearms. *)
Lemma runFor_returns_armed speed msToRun w b w' :
  runFor speed msToRun w = Ok (b, w') -> _firstRun (self w') = b.
Proof.
  destruct (runFor_call speed msToRun w) as (w1 & H1 & Hf & _).
  rewrite H1. intros H. injection H as <- <-. exact Hf.
Qed.

Lemma waitFor_returns_armed msToWait w b w' :
  waitFor msToWait w = Ok (b, w') -> _firstRun (self w') = b.
Proof.
  destruct (waitFor_call msToWait w) as (w1 & H1 & Hf & _).
  rewrite H1. intros H. injection H as <- <-. exact Hf.
Qed.

Lemma ramp_completion_rearms speedFrom speedTo msWait mode step passed w w' :
  ramp_call speedFrom speedTo msWait mode step passed w ->
  accelerate speedFrom speedTo msWait w = Ok (true, w') ->
  _firstRun (self w') = true /\
  passed (ramp_speed speedFrom w) = true /\
  exists rest, trace w' = trace w ++ CallRun (ramp_speed speedFrom w) :: rest.
Proof.
  intros (w1 & H1 & (rest & Hrest & _) & _ & _ & Hcase) H.
  rewrite H1 in H. injection H as Hb <-.
  rewrite Hb in Hcase. destruct Hcase as (Hf & _).
  repeat split; try assumption. exists rest. exact Hrest.
Qed.

(** C1 at its failing input: on a freshly constructed motor,
    [accelerate(50, 50, 10)] returns [true] on its first call and leaves
    [_firstRun] false.  The next timed operation therefore skips its
    entry: [waitFor(5000)] does not brake (the duty stays 512), and
    [accelerate(0, 100, 60)] returns [true] at once, having driven the
    motor at 50. *)
Theorem accelerate_constant_returns_unarmed :
  let w := init_world motorB (steady_clock 0 1) in
  exists w1,
    accelerate 50 50 10 w = Ok (true, w1) /\
    _firstRun (self w) = true /\
    _firstRun (self w1) = false /\
    (exists w2,
        waitFor 5000 w1 = Ok (false, w2) /\
        brake_calls (trace w2) = O /\ duty (self w2) = 512) /\
    (exists w3,
        accelerate 0 100 60 w1 = Ok (true, w3) /\
        run_calls (trace w3) = [50; 50]).
Proof.
  cbv zeta. eexists. split; [vm_compute; reflexivity|].
  split; [reflexivity|]. split; [reflexivity|]. split.
  - eexists. split; [vm_compute; reflexivity|]. split; reflexivity.
  - eexists. split; [vm_compute; reflexivity|]. reflexivity.
Qed.

(** ** Elapsed time and the wraparound of the counter *)

(** C2, as stated, fails: the anchor is taken 10 ms before the counter
    wraps and the next call reads the counter 5 ms after the wrap.  The
    modular distance is 15 ms, more than the 10 ms asked for, yet
    [runFor] and [waitFor] return [false] and [accelerate] does not step:
    they compare the plain difference [5 - (TICKS_PERIOD - 10)]. *)
Lemma wraparound_corrupts_timing :
  let w := init_world motorA wrapping_clock in
  0 <= wrapping_clock 0 < TICKS_PERIOD /\
  0 <= wrapping_clock 2 < TICKS_PERIOD /\
  modular_elapsed TICKS_PERIOD (wrapping_clock 2) (wrapping_clock 0) = 15 /\
  wrapping_clock 2 - wrapping_clock 0 = 15 - TICKS_PERIOD /\
  (exists w', poll (runFor 30 10) 2 w = Ok ([false; false], w')) /\
  (exists w', poll (waitFor 10) 2 w = Ok ([false; false], w')) /\
  (exists w', poll (accelerate 0 100 10) 2 w = Ok ([false; false], w') /\
              _sp (self w') = 0).
Proof.
  cbv zeta.
  split; [vm_compute; split; [discriminate|reflexivity]|].
  split; [vm_compute; split; [discriminate|reflexivity]|].
  split; [reflexivity|]. split; [reflexivity|].
  split; [|split]; eexists.
  - vm_compute. reflexivity.
  - vm_compute. reflexivity.
  - split; [vm_compute; reflexivity|]. reflexivity.
Qed.

(** C2 (amended): the timing decision of [runFor], of [waitFor] and of a
    ramp step of [accelerate] is the comparison of the plain integer
    difference [now - anchor] of the two readings with the duration; and
    whenever the counter, of period [P], has not wrapped between the two
    readings ([0 <= anchor <= now < P]), that difference is the modular
    distance [(now - anchor) mod P], so the decision is the
    wraparound-safe one. *)
Theorem elapsed_is_plain_difference P speed speedFrom speedTo ms w :
  let now := ticks w (cmp_read w) in
  let anchor := anchor_of w in
  (exists w', runFor speed ms w = Ok (now - anchor >? ms, w')) /\
  (exists w', waitFor ms w = Ok (now - anchor >? ms, w')) /\
  (speedFrom < speedTo ->
   _firstRun (self w) = true \/ _accelMode (self w) = 0 ->
   ramp_speed speedFrom w <= speedTo ->
   exists w',
     accelerate speedFrom speedTo ms w = Ok (false, w') /\
     _sp (self w') =
       ramp_speed speedFrom w + (if now - anchor >? ms then 1 else 0)) /\
  (speedFrom > speedTo ->
   _firstRun (self w) = true \/ _accelMode (self w) = 1 ->
   ramp_speed speedFrom w >= speedTo ->
   exists w',
     accelerate speedFrom speedTo ms w = Ok (false, w') /\
     _sp (self w') =
       ramp_speed speedFrom w - (if now - anchor >? ms then 1 else 0)) /\
  (0 <= anchor <= now -> now < P ->
   now - anchor = modular_elapsed P now anchor /\
   (now - anchor >? ms) = (modular_elapsed P now anchor >? ms)).
Proof.
  cbv zeta. split; [|split; [|split; [|split]]].
  - destruct (runFor_call speed ms w) as (w' & H & _). exists w'. exact H.
  - destruct (waitFor_call ms w) as (w' & H & _). exists w'. exact H.
  - intros Hlt Hinv Hle.
    destruct (accelerate_up_call speedFrom speedTo ms w Hlt Hinv)
      as (w' & Hc & _ & _ & _ & Hcase).
    assert (Hp : (speedTo <? ramp_speed speedFrom w) = false) by lia.
    rewrite Hp in *. destruct Hcase as (_ & _ & Hstep).
    exists w'. split; [exact Hc|].
    destruct (ticks w (cmp_read w) - anchor_of w >? ms);
      destruct Hstep as [Hs _]; rewrite Hs; lia.
  - intros Hgt Hinv Hge.
    destruct (accelerate_down_call speedFrom speedTo ms w Hgt Hinv)
      as (w' & Hc & _ & _ & _ & Hcase).
    assert (Hp : (ramp_speed speedFrom w <? speedTo) = false) by lia.
    rewrite Hp in *. destruct Hcase as (_ & _ & Hstep).
    exists w'. split; [exact Hc|].
    destruct (ticks w (cmp_read w) - anchor_of w >? ms);
      destruct Hstep as [Hs _]; rewrite Hs; lia.
  - intros Hord Hlt.
    assert (E : ticks w (cmp_read w) - anchor_of w =
                modular_elapsed P (ticks w (cmp_read w)) (anchor_of w)).
    { unfold modular_elapsed. rewrite Z.mod_small; lia. }
    split; [exact E|]. rewrite <- E. reflexivity.
Qed.

Lemma elapsed_is_plain_difference_witness :
  let w := ramping 7 (steady_clock 0 61) in
  0 < 100 /\
  (_firstRun (self w) = true \/ _accelMode (self w) = 0) /\
  ramp_speed 0 w <= 100 /\
  0 <= anchor_of w <= ticks w (cmp_read w) /\
  ticks w (cmp_read w) < TICKS_PERIOD /\
  (exists w', accelerate 0 100 60 w = Ok (false, w') /\ _sp (self w') = 8) /\
  ticks w (cmp_read w) - anchor_of w =
    modular_elapsed TICKS_PERIOD (ticks w (cmp_read w)) (anchor_of w).
Proof.
  cbv zeta.
  assert (H1 : 0 < 100) by lia.
  assert (H2 : _firstRun (self (ramping 7 (steady_clock 0 61))) = true \/
               _accelMode (self (ramping 7 (steady_clock 0 61))) = 0)
    by (right; reflexivity).
  assert (H3 : ramp_speed 0 (ramping 7 (steady_clock 0 61)) <= 100)
    by (vm_compute; discriminate).
  assert (H4 : 0 <= anchor_of (ramping 7 (steady_clock 0 61)) <=
               ticks (ramping 7 (steady_clock 0 61))
                     (cmp_read (ramping 7 (steady_clock 0 61))))
    by (vm_compute; split; discriminate).
  assert (H5 : ticks (ramping 7 (steady_clock 0 61))
                     (cmp_read (ramping 7 (steady_clock 0 61))) < TICKS_PERIOD)
    by reflexivity.
  destruct (elapsed_is_plain_difference TICKS_PERIOD 30 0 100 60
              (ramping 7 (steady_clock 0 61)))
    as (_ & _ & Hup & _ & Hmod).
  split; [exact H1|]. split; [exact H2|]. split; [exact H3|].
  split; [exact H4|]. split; [exact H5|]. split.
  - destruct (Hup H1 H2 H3) as (w' & Hc & Hs).
    exists w'. split; [exact Hc|]. rewrite Hs. reflexivity.
  - apply (Hmod H4 H5).
Defined.

(** ** The speed range *)

(** C3 at its failing input: [accelerate(0, 100, 60)] on a freshly
    constructed motor, polled to completion while the clock advances 61
    ms between readings.  The 102 calls enter [run] with 0, 1, ..., 100
    and then 101; the last call writes the duty 1033 although the largest
    duty of the 10-bit PWM is 1023. *)
Theorem accelerate_runs_beyond_speedTo :
  let w := init_world motorB (steady_clock 0 61) in
  exists w',
    poll (accelerate 0 100 60) 102 w = Ok (repeat false 101 ++ [true], w') /\
    run_calls (trace w') = List.map Z.of_nat (seq 0 102) /\
    last (run_calls (trace w')) 0 = 101 /\
    duty (self w') = 1033 /\
    _dutyMax (self w') = 1023.
Proof.
  cbv zeta. eexists. split; [vm_compute; reflexivity|].
  vm_compute. repeat split.
Qed.

(** The same on the way down: [accelerate(50, 0, 100)], as [main.py]
    calls it, ends by entering [run] with [-1] and writing the duty [-9]. *)
Lemma accelerate_runs_below_speedTo :
  let w := init_world motorB (steady_clock 0 101) in
  exists w',
    poll (accelerate 50 0 100) 52 w = Ok (repeat false 51 ++ [true], w') /\
    last (run_calls (trace w')) 0 = -1 /\
    duty (self w') = -9 /\
    _dutyMin (self w') = 0.
Proof.
  cbv zeta. eexists. split; [vm_compute; reflexivity|].
  vm_compute. repeat split.
Qed.

(** Whatever the clock does: a call of an increasing ramp that returns
    [true] has entered [run] with a speed above [speedTo]. *)
Lemma ramp_completes_above_speedTo speedFrom speedTo msWait w w' :
  speedFrom < speedTo ->
  _firstRun (self w) = true \/ _accelMode (self w) = 0 ->
  accelerate speedFrom speedTo msWait w = Ok (true, w') ->
  exists speed rest,
    speedTo < speed /\ trace w' = trace w ++ CallRun speed :: rest.
Proof.
  intros Hlt Hinv Hc.
  destruct (ramp_completion_rearms _ _ _ _ _ _ _ _
              (accelerate_up_call speedFrom speedTo msWait w Hlt Hinv) Hc)
    as (_ & Hp & rest & Hrest).
  exists (ramp_speed speedFrom w), rest. split; [lia|exact Hrest].
Qed.

(** ** A small program logic *)

Lemma hoare_bind {A B} (P : World -> Prop) (c : M A) (Q : A -> World -> Prop)
      (k : A -> M B) (R : B -> World -> Prop) :
  hoare P c Q -> (forall a, hoare (Q a) (k a) R) -> hoare P (bind c k) R.
Proof.
  intros Hc Hk w Hw. destruct (Hc w Hw) as (a & w1 & E1 & H1).
  destruct (Hk a w1 H1) as (b & w2 & E2 & H2).
  exists b, w2. unfold bind. rewrite E1. split; assumption.
Qed.

Lemma hoare_weaken {A} (P P' : World -> Prop) (c : M A)
      (Q Q' : A -> World -> Prop) :
  hoare P' c Q' -> (forall w, P w -> P' w) ->
  (forall a w, Q' a w -> Q a w) -> hoare P c Q.
Proof.
  intros Hc HP HQ w Hw. destruct (Hc w (HP w Hw)) as (a & w' & E & H).
  exists a, w'. split; [assumption|apply HQ; assumption].
Qed.

(** ** What each method does to the object *)

Lemma same_config_refl s : same_config s s.
Proof. repeat split. Qed.


Lemma run_fields speed w :
  exists w',
    run speed w = Ok (tt, w') /\
    same_config (self w) (self w') /\
    _rotation (self w') = stored_direction (_rotation (self w)) /\
    pins (self w') = pattern (_rotation (self w)) /\
    duty (self w') = duty_of speed (self w) /\
    _firstRun (self w') = _firstRun (self w) /\
    _msPrevious (self w') = _msPrevious (self w) /\
    _accelMode (self w') = _accelMode (self w) /\
    _sp (self w') = _sp (self w) /\
    ticks w' = ticks w /\ reads w' = reads w.
Proof.
  eexists. split; [apply run_eq|].
  destruct w as [s clk r tr].
  destruct s as [i pwm p1 p2 rot dmax dmin fr prev mode sp].
  unfold same_config, stored_direction, pattern. mcbv.
  destruct (rot =? CW); repeat split.
Qed.

Lemma brake_fields w :
  exists w',
    brake w = Ok (tt, w') /\
    same_config (self w) (self w') /\
    _rotation (self w') = _rotation (self w) /\
    pins (self w') = (0, 0) /\
    duty (self w') = 0 /\
    _firstRun (self w') = _firstRun (self w) /\
    _msPrevious (self w') = _msPrevious (self w) /\
    _accelMode (self w') = _accelMode (self w) /\
    _sp (self w') = _sp (self w) /\
    ticks w' = ticks w /\ reads w' = reads w.
Proof.
  eexists. split; [apply brake_eq|].
  destruct w as [s clk r tr].
  destruct s as [i pwm p1 p2 rot dmax dmin fr prev mode sp].
  unfold same_config. mcbv. repeat split.
Qed.

Lemma rotate_fields d w :
  exists w',
    rotate d w = Ok (tt, w') /\
    same_config (self w) (self w') /\
    _rotation (self w') = stored_direction d /\
    pins (self w') = pattern d /\
    duty (self w') = duty (self w) /\
    _firstRun (self w') = _firstRun (self w) /\
    _msPrevious (self w') = _msPrevious (self w) /\
    _accelMode (self w') = _accelMode (self w) /\
    _sp (self w') = _sp (self w) /\
    ticks w' = ticks w /\ reads w' = reads w.
Proof.
  eexists. split; [apply rotate_eq|].
  destruct w as [s clk r tr].
  destruct s as [i pwm p1 p2 rot dmax dmin fr prev mode sp].
  unfold same_config, stored_direction, pattern. mcbv.
  destruct (d =? CW); repeat split.
Qed.

Lemma reverseRotation_fields w :
  exists w',
    reverseRotation w = Ok (tt, w') /\
    same_config (self w) (self w') /\
    _rotation (self w') = (if _rotation (self w) =? CCW then CW else CCW) /\
    pins (self w') = pins (self w) /\
    duty (self w') = duty (self w) /\
    _firstRun (self w') = _firstRun (self w) /\
    _msPrevious (self w') = _msPrevious (self w) /\
    _accelMode (self w') = _accelMode (self w) /\
    _sp (self w') = _sp (self w) /\
    ticks w' = ticks w /\ reads w' = reads w /\ trace w' = trace w.
Proof.
  eexists. split; [reflexivity|].
  destruct w as [s clk r tr].
  destruct s as [i pwm p1 p2 rot dmax dmin fr prev mode sp].
  unfold same_config. mcbv. repeat split.
Qed.

Lemma runFor_fields speed msToRun w :
  let expired := ticks w (cmp_read w) - anchor_of w >? msToRun in
  exists w',
    runFor speed msToRun w = Ok (expired, w') /\
    same_config (self w) (self w') /\
    _rotation (self w') =
      (if speed >=? 0 then stored_direction (_rotation (self w))
       else _rotation (self w)) /\
    pins (self w') =
      (if expired then (0, 0)
       else if speed >=? 0 then pattern (_rotation (self w))
            else pins (self w)) /\
    duty (self w') =
      (if expired then 0
       else if speed >=? 0 then duty_of speed (self w) else duty (self w)) /\
    _firstRun (self w') = expired /\
    _msPrevious (self w') = anchor_of w /\
    _accelMode (self w') = _accelMode (self w) /\
    _sp (self w') = _sp (self w) /\
    ticks w' = ticks w /\ reads w' = S (cmp_read w).
Proof.
  cbv zeta. destruct w as [s clk r tr]. unfold anchor_of, cmp_read.
  destruct s as [i pwm p1 p2 rot dmax dmin fr prev mode sp].
  cbn [self ticks reads trace _firstRun _msPrevious].
  unfold runFor, same_config, stored_direction, pattern.
  destruct fr; cbv iota;
  match goal with
  | |- context [?a - ?b >? msToRun] => destruct (a - b >? msToRun) eqn:He
  end;
  destruct (speed >=? 0) eqn:Hs;
  mrun; rewrite ?He; mrun;
  (eexists; split; [reflexivity|]); mcbv;
  destruct (rot =? CW); repeat split.
Qed.

Lemma waitFor_fields msToWait w :
  let expired := ticks w (cmp_read w) - anchor_of w >? msToWait in
  exists w',
    waitFor msToWait w = Ok (expired, w') /\
    same_config (self w) (self w') /\
    _rotation (self w') = _rotation (self w) /\
    pins (self w') = (if _firstRun (self w) then (0, 0) else pins (self w)) /\
    duty (self w') = (if _firstRun (self w) then 0 else duty (self w)) /\
    _firstRun (self w') = expired /\
    _msPrevious (self w') = anchor_of w /\
    _accelMode (self w') = _accelMode (self w) /\
    _sp (self w') = _sp (self w) /\
    ticks w' = ticks w /\ reads w' = S (cmp_read w).
Proof.
  cbv zeta. destruct w as [s clk r tr]. unfold anchor_of, cmp_read.
  destruct s as [i pwm p1 p2 rot dmax dmin fr prev mode sp].
  cbn [self ticks reads trace _firstRun _msPrevious].
  unfold waitFor, same_config.
  destruct fr; cbv iota;
  match goal with
  | |- context [?a - ?b >? msToWait] => destruct (a - b >? msToWait) eqn:He
  end;
  mrun; rewrite ?He; mrun;
  (eexists; split; [reflexivity|]); mcbv; repeat split.
Qed.

(** Whatever the mode and the arguments, [accelerate] returns normally
    and has driven the motor once, at the ramp speed of the call. *)
Lemma accelerate_fields speedFrom speedTo msWait w :
  exists b w',
    accelerate speedFrom speedTo msWait w = Ok (b, w') /\
    same_config (self w) (self w') /\
    _rotation (self w') = stored_direction (_rotation (self w)) /\
    pins (self w') = pattern (_rotation (self w)) /\
    duty (self w') = duty_of (ramp_speed speedFrom w) (self w) /\
    ticks w' = ticks w /\
    run_calls (trace w') = run_calls (trace w) ++ [ramp_speed speedFrom w] /\
    brake_calls (trace w') = brake_calls (trace w).
Proof.
  destruct w as [s clk r tr]. unfold ramp_speed.
  destruct s as [i pwm p1 p2 rot dmax dmin fr prev mode sp].
  cbn [self ticks reads trace _firstRun _sp].
  unfold accelerate, same_config, stored_direction, pattern.
  destruct fr; cbv iota; mcbv.
  - destruct (speedFrom <? speedTo) eqn:H1;
    destruct (speedFrom >? speedTo) eqn:H2;
    destruct (speedFrom =? speedTo) eqn:H3; try lia; mrun;
    cbn [Z.eqb Pos.eqb]; cbv iota beta; mrun;
    repeat match goal with
           | |- context [if ?c then _ else _] =>
               lazymatch c with
               | context [rot] => fail
               | _ => destruct c eqn:?
               end; mrun
           end;
    (do 2 eexists; split; [reflexivity|]); mcbv; tr_simpl;
    destruct (rot =? CW); repeat split.
  - mrun.
    repeat match goal with
           | |- context [if ?c then _ else _] =>
               lazymatch c with
               | context [rot] => fail
               | _ => destruct c eqn:?
               end; mrun
           end;
    (do 2 eexists; split; [reflexivity|]); mcbv; tr_simpl;
    destruct (rot =? CW); repeat split.
Qed.

Lemma stored_direction_valid d :
  stored_direction d = CW \/ stored_direction d = CCW.
Proof. unfold stored_direction. destruct (d =? CW); [left|right]; reflexivity. Qed.

Lemma stored_direction_fixed r :
  r = CW \/ r = CCW -> stored_direction r = r.
Proof. intros [-> | ->]; reflexivity. Qed.

Lemma pattern_exclusive d : pattern d = (1, 0) \/ pattern d = (0, 1).
Proof. unfold pattern. destruct (d =? CW); [left|right]; reflexivity. Qed.

Lemma duty_of_same_config speed s s' :
  same_config s s' -> duty_of speed s' = duty_of speed s.
Proof.
  intros (_ & Hmin & Hmax & _). unfold duty_of. rewrite Hmin, Hmax. reflexivity.
Qed.

Lemma duty_of_range speed s :
  _dutyMin s = 0 -> 0 <= _dutyMax s -> 0 <= speed <= 100 ->
  0 <= duty_of speed s <= _dutyMax s.
Proof.
  intros Hmin Hmax Hs. unfold duty_of. rewrite Hmin. split.
  - transitivity (map_value 0 0 100 0 (_dutyMax s)).
    + rewrite map_value_low. lia.
    + apply map_value_monotone; lia.
  - transitivity (map_value 100 0 100 0 (_dutyMax s)).
    + apply map_value_monotone; lia.
    + rewrite map_value_high by assumption. lia.
Qed.

(** ** [brake] and [run] *)

(** X1: [brake] returns normally, sets both direction pins low and the
    duty to 0 and changes nothing else of the object; braking twice is
    braking once; and a [run] after a [brake] leaves the object exactly
    as the [run] alone would, so motion resumes in the stored direction. *)
Theorem brake_clears_outputs_only speed w :
  exists w1 w2 w3 w4,
    brake w = Ok (tt, w1) /\
    self w1 = with_pinPwm_duty 0 (with_pin2_value 0 (with_pin1_value 0 (self w))) /\
    pins (self w1) = (0, 0) /\ duty (self w1) = 0 /\
    _rotation (self w1) = _rotation (self w) /\
    ticks w1 = ticks w /\ reads w1 = reads w /\
    brake w1 = Ok (tt, w2) /\ self w2 = self w1 /\
    run speed w1 = Ok (tt, w3) /\
    run speed w = Ok (tt, w4) /\
    self w3 = self w4 /\
    pins (self w3) = pattern (_rotation (self w)).
Proof.
  destruct w as [s clk r tr].
  destruct s as [i pwm p1 p2 rot dmax dmin fr prev mode sp].
  do 4 eexists.
  split; [apply brake_eq|]. split; [reflexivity|].
  unfold pattern. mcbv.
  do 5 (split; [reflexivity|]).
  split; [apply brake_eq|]. split; [reflexivity|].
  split; [apply run_eq|]. split; [apply run_eq|]. mcbv.
  split; [reflexivity|]. destruct (rot =? CW); reflexivity.
Qed.


(** ** Invariants of every program over the class *)

Lemma exec_fields c w :
  exists w',
    exec c w = Ok (tt, w') /\
    same_config (self w) (self w') /\
    (_rotation (self w') = _rotation (self w) \/
     _rotation (self w') = stored_direction (_rotation (self w)) \/
     _rotation (self w') = CW \/ _rotation (self w') = CCW) /\
    (pins (self w') = pins (self w) \/ pins (self w') = (0, 0) \/
     pins (self w') = (1, 0) \/ pins (self w') = (0, 1)) /\
    (duty (self w') = duty (self w) \/ duty (self w') = 0 \/
     exists speed, duty (self w') = duty_of speed (self w) /\
                   forall lo hi, asks_within lo hi c -> lo <= speed <= hi).
Proof.
  destruct c as [speed|speed ms|ms|sf st ms|d| | |]; cbn [exec].
  - destruct (run_fields speed w) as (w' & E & Hc & Hr & Hp & Hd & _).
    exists w'. split; [exact E|]. split; [exact Hc|].
    split; [right; left; exact Hr|]. split.
    + rewrite Hp. destruct (pattern_exclusive (_rotation (self w))); auto.
    + right; right. exists speed. split; [exact Hd|]. intros lo hi H; exact H.
  - destruct (runFor_fields speed ms w) as (w' & E & Hc & Hr & Hp & Hd & _).
    exists w'. unfold bind, ret. rewrite E. split; [reflexivity|].
    split; [exact Hc|]. split; [|split].
    + rewrite Hr. destruct (speed >=? 0); auto.
    + rewrite Hp. destruct (_ >? ms); [auto|].
      destruct (speed >=? 0); [|auto].
      destruct (pattern_exclusive (_rotation (self w))); auto.
    + rewrite Hd. destruct (_ >? ms); [auto|].
      destruct (speed >=? 0) eqn:Hs; [|auto].
      right; right. exists speed. split; [reflexivity|].
      intros lo hi [H|H]; [lia|exact H].
  - destruct (waitFor_fields ms w) as (w' & E & Hc & Hr & Hp & Hd & _).
    exists w'. unfold bind, ret. rewrite E. split; [reflexivity|].
    split; [exact Hc|]. split; [left; exact Hr|]. split.
    + rewrite Hp. destruct (_firstRun (self w)); auto.
    + rewrite Hd. destruct (_firstRun (self w)); auto.
  - destruct (accelerate_fields sf st ms w) as (b & w' & E & Hc & Hr & Hp & Hd & _).
    exists w'. unfold bind, ret. rewrite E. split; [reflexivity|].
    split; [exact Hc|]. split; [right; left; exact Hr|]. split.
    + rewrite Hp. destruct (pattern_exclusive (_rotation (self w))); auto.
    + right; right. eexists. split; [exact Hd|]. intros lo hi [].
  - destruct (rotate_fields d w) as (w' & E & Hc & Hr & Hp & Hd & _).
    exists w'. split; [exact E|]. split; [exact Hc|]. split; [|split].
    + rewrite Hr. destruct (stored_direction_valid d); auto.
    + rewrite Hp. destruct (pattern_exclusive d); auto.
    + left; exact Hd.
  - destruct (reverseRotation_fields w) as (w' & E & Hc & Hr & Hp & Hd & _).
    exists w'. split; [exact E|]. split; [exact Hc|]. split; [|split].
    + rewrite Hr. destruct (_ =? CCW); auto.
    + left; exact Hp.
    + left; exact Hd.
  - destruct (brake_fields w) as (w' & E & Hc & Hr & Hp & Hd & _).
    exists w'. split; [exact E|]. split; [exact Hc|]. split; [|split]; auto.
  - exists w. split; [reflexivity|]. split; [apply same_config_refl|]. auto.
Qed.


(** X4: a program without ramps whose [run] and actuating [runFor] calls
    ask for speeds in [0 .. 100] keeps the PWM duty within the duty
    bounds [0 .. 1023] of a freshly constructed motor. *)
Theorem programs_without_ramps_keep_the_duty_in_range
        motorID pinPwmEnab pin1 pin2 pwmFrequency clk cs :
  Forall (asks_within 0 100) cs ->
  exists w',
    exec_all cs (init_world (init motorID pinPwmEnab pin1 pin2 pwmFrequency) clk)
      = Ok (tt, w') /\
    0 <= duty (self w') <= 1023.
Proof.
  intros Hcs.
  assert (G : forall cs w,
             Forall (asks_within 0 100) cs ->
             _dutyMin (self w) = 0 -> _dutyMax (self w) = 1023 ->
             0 <= duty (self w) <= 1023 ->
             exists w', exec_all cs w = Ok (tt, w') /\
                        0 <= duty (self w') <= 1023).
  { clear cs Hcs. induction cs as [|c cs IH]; intros w Hall Hmin Hmax Hd.
    - exists w. split; [reflexivity|assumption].
    - inversion Hall as [|c' cs' Hc Hrest]; subst.
      destruct (exec_fields c w) as (w1 & E1 & Hc1 & _ & _ & Hd1).
      destruct Hc1 as (_ & Hmin1 & Hmax1 & _).
      destruct (IH w1 Hrest) as (w' & E & Hd').
      + congruence.
      + congruence.
      + destruct Hd1 as [H|[H|(speed & H & Hs)]]; rewrite H; [assumption|lia|].
        rewrite <- Hmax. apply duty_of_range; [assumption|lia|].
        apply Hs. exact Hc.
      + exists w'. cbn [exec_all]. unfold bind. rewrite E1.
        split; assumption. }
  apply G; [assumption|reflexivity|reflexivity|cbn; lia].
Qed.

Lemma programs_without_ramps_keep_the_duty_in_range_witness :
  let cs := [DoRunFor 30 1000; DoWaitFor 500; DoReverseRotation;
             DoRun 100; DoRunFor (-1) 10; DoRotate 7; DoBrake; DoRun 0] in
  Forall (asks_within 0 100) cs /\
  exists w',
    exec_all cs (init_world (init "A" 0 4 5 220) (steady_clock 0 400))
      = Ok (tt, w') /\
    0 <= duty (self w') <= 1023.
Proof.
  cbv zeta.
  assert (H : Forall (asks_within 0 100)
                [DoRunFor 30 1000; DoWaitFor 500; DoReverseRotation;
                 DoRun 100; DoRunFor (-1) 10; DoRotate 7; DoBrake; DoRun 0]).
  { repeat constructor; cbn; lia. }
  split; [exact H|].
  exact (programs_without_ramps_keep_the_duty_in_range
           "A" 0 4 5 220 (steady_clock 0 400) _ H).
Defined.

(** ** Progress and duration of a ramp *)

Lemma accelerate_up_fields speedFrom speedTo msWait w :
  speedFrom < speedTo ->
  _firstRun (self w) = true \/ _accelMode (self w) = 0 ->
  let sp0 := ramp_speed speedFrom w in
  let stepped := ticks w (cmp_read w) - anchor_of w >? msWait in
  exists w',
    accelerate speedFrom speedTo msWait w = Ok (speedTo <? sp0, w') /\
    ticks w' = ticks w /\
    _accelMode (self w') = 0 /\
    run_calls (trace w') = run_calls (trace w) ++ [sp0] /\
    brake_calls (trace w') = brake_calls (trace w) /\
    _firstRun (self w') = (speedTo <? sp0) /\
    reads w' = (if speedTo <? sp0 then cmp_read w else S (cmp_read w)) /\
    _sp (self w') =
      (if speedTo <? sp0 then sp0 else if stepped then sp0 + 1 else sp0) /\
    _msPrevious (self w') =
      (if speedTo <? sp0 then anchor_of w
       else if stepped then ticks w (cmp_read w) else anchor_of w).
Proof.
  intros Hlt Hinv. cbv zeta. unfold ramp_speed, anchor_of, cmp_read.
  destruct w as [s clk r tr].
  destruct s as [i pwm p1 p2 rot dmax dmin fr prev mode sp].
  cbn [self ticks reads trace _firstRun _msPrevious _sp _accelMode] in *.
  unfold accelerate.
  assert (Hc1 : (speedFrom <? speedTo) = true) by lia.
  assert (Hc2 : (speedFrom >? speedTo) = false) by lia.
  assert (Hc3 : (speedFrom =? speedTo) = false) by lia.
  destruct fr.
  - cbv iota zeta. mcbv. rewrite Hc1, Hc2, Hc3. mrun.
    cbv iota beta. cbn [Z.eqb].
    destruct (speedTo <? speedFrom) eqn:Hp; [lia|].
    assert (Hw : (speedFrom <=? speedTo) = true) by lia. rewrite Hw. mrun.
    destruct (clk (S r) - clk r >? msWait) eqn:He; mrun;
    (eexists; split; [reflexivity|]); mcbv; tr_simpl; repeat split.
  - destruct Hinv as [Hinv|Hinv]; [discriminate|subst mode].
    cbv iota zeta. mrun. cbn [Z.eqb]. cbv iota beta.
    destruct (speedTo <? sp) eqn:Hp.
    + assert (Hw : (sp <=? speedTo) = false) by lia. rewrite Hw. mrun.
      (eexists; split; [reflexivity|]); mcbv; tr_simpl; repeat split.
    + assert (Hw : (sp <=? speedTo) = true) by lia. rewrite Hw. mrun.
      destruct (clk r - prev >? msWait) eqn:He; mrun;
      (eexists; split; [reflexivity|]); mcbv; tr_simpl; repeat split.
Qed.

Lemma accelerate_down_fields speedFrom speedTo msWait w :
  speedFrom > speedTo ->
  _firstRun (self w) = true \/ _accelMode (self w) = 1 ->
  let sp0 := ramp_speed speedFrom w in
  let stepped := ticks w (cmp_read w) - anchor_of w >? msWait in
  exists w',
    accelerate speedFrom speedTo msWait w = Ok (sp0 <? speedTo, w') /\
    ticks w' = ticks w /\
    _accelMode (self w') = 1 /\
    run_calls (trace w') = run_calls (trace w) ++ [sp0] /\
    brake_calls (trace w') = brake_calls (trace w) /\
    _firstRun (self w') = (sp0 <? speedTo) /\
    reads w' = (if sp0 <? speedTo then cmp_read w else S (cmp_read w)) /\
    _sp (self w') =
      (if sp0 <? speedTo then sp0 else if stepped then sp0 - 1 else sp0) /\
    _msPrevious (self w') =
      (if sp0 <? speedTo then anchor_of w
       else if stepped then ticks w (cmp_read w) else anchor_of w).
Proof.
  intros Hlt Hinv. cbv zeta. unfold ramp_speed, anchor_of, cmp_read.
  destruct w as [s clk r tr].
  destruct s as [i pwm p1 p2 rot dmax dmin fr prev mode sp].
  cbn [self ticks reads trace _firstRun _msPrevious _sp _accelMode] in *.
  unfold accelerate.
  assert (Hc1 : (speedFrom <? speedTo) = false) by lia.
  assert (Hc2 : (speedFrom >? speedTo) = true) by lia.
  assert (Hc3 : (speedFrom =? speedTo) = false) by lia.
  destruct fr.
  - cbv iota zeta. mcbv. rewrite Hc1, Hc2, Hc3. mrun.
    cbv iota beta. cbn [Z.eqb Pos.eqb]. mrun.
    destruct (speedFrom <? speedTo) eqn:Hp; [lia|].
    assert (Hw : (speedFrom >=? speedTo) = true) by lia. rewrite Hw. mrun.
    destruct (clk (S r) - clk r >? msWait) eqn:He; mrun;
    (eexists; split; [reflexivity|]); mcbv; tr_simpl; repeat split.
  - destruct Hinv as [Hinv|Hinv]; [discriminate|subst mode].
    cbv iota zeta. mrun. cbn [Z.eqb Pos.eqb]. cbv iota beta. mrun.
    destruct (sp <? speedTo) eqn:Hp.
    + assert (Hw : (sp >=? speedTo) = false) by lia. rewrite Hw. mrun.
      (eexists; split; [reflexivity|]); mcbv; tr_simpl; repeat split.
    + assert (Hw : (sp >=? speedTo) = true) by lia. rewrite Hw. mrun.
      destruct (clk r - prev >? msWait) eqn:He; mrun;
      (eexists; split; [reflexivity|]); mcbv; tr_simpl; repeat split.
Qed.

Lemma counting_up_S first len :
  counting_up first (S len) = first :: counting_up (first + 1) len.
Proof.
  unfold counting_up. cbn [seq List.map]. rewrite Z.add_0_r. f_equal.
  rewrite <- seq_shift, map_map. apply map_ext. intros i. lia.
Qed.

Lemma counting_down_S first len :
  counting_down first (S len) = first :: counting_down (first - 1) len.
Proof.
  unfold counting_down. cbn [seq List.map]. rewrite Z.sub_0_r. f_equal.
  rewrite <- seq_shift, map_map. apply map_ext. intros i. lia.
Qed.

Lemma ramp_up_in_flight speedFrom speedTo msWait : forall m w,
  speedFrom < speedTo ->
  _firstRun (self w) = false -> _accelMode (self w) = 0 ->
  (forall i, (reads w <= i)%nat -> ticks w (S i) - ticks w i > msWait) ->
  ticks w (reads w) - _msPrevious (self w) > msWait ->
  _sp (self w) = speedTo + 1 - Z.of_nat m ->
  exists w',
    poll (accelerate speedFrom speedTo msWait) (S m) w
      = Ok (repeat false m ++ [true], w') /\
    run_calls (trace w') = run_calls (trace w) ++ counting_up (_sp (self w)) (S m) /\
    brake_calls (trace w') = brake_calls (trace w) /\
    _firstRun (self w') = true /\ _sp (self w') = speedTo + 1 /\
    reads w' = (reads w + m)%nat.
Proof.
  induction m as [|m IH]; intros w Hlt Hfr Hmode Hclk Hj Hsp.
  - destruct (accelerate_up_fields speedFrom speedTo msWait w Hlt (or_intror Hmode))
      as (w' & E & _ & _ & Hrc & Hbc & Hf & Hr & Hs & _).
    unfold ramp_speed, cmp_read in *. rewrite Hfr in *.
    assert (Hp : (speedTo <? _sp (self w)) = true) by lia.
    rewrite Hp in *.
    exists w'. rewrite poll_S, E. cbn [poll repeat app]. unfold ret.
    split; [reflexivity|]. split; [|split; [|split; [|split]]].
    + rewrite Hrc. unfold counting_up. cbn. rewrite Z.add_0_r. reflexivity.
    + exact Hbc.
    + exact Hf.
    + rewrite Hs. lia.
    + rewrite Hr. lia.
  - destruct (accelerate_up_fields speedFrom speedTo msWait w Hlt (or_intror Hmode))
      as (w1 & E & Ht & Hm1 & Hrc & Hbc & Hf & Hr & Hs & Hp1).
    unfold ramp_speed, cmp_read, anchor_of in *. rewrite Hfr in *.
    assert (Hp : (speedTo <? _sp (self w)) = false) by lia.
    assert (Hst : (ticks w (reads w) - _msPrevious (self w) >? msWait) = true)
      by lia.
    rewrite Hp, Hst in *.
    destruct (IH w1) as (w' & E' & Hrc' & Hbc' & Hf' & Hs' & Hr'); try assumption.
    + intros i Hi. rewrite Ht. apply Hclk. lia.
    + rewrite Ht, Hr, Hp1. apply Hclk. lia.
    + rewrite Hs. lia.
    + exists w'. rewrite poll_S, E, E'. cbn [repeat app].
      split; [reflexivity|]. split; [|split; [|split; [|split]]].
      * rewrite Hrc', Hrc, Hs, <- app_assoc.
        rewrite (counting_up_S (_sp (self w)) (S m)). reflexivity.
      * congruence.
      * exact Hf'.
      * exact Hs'.
      * rewrite Hr', Hr. lia.
Qed.

(** X5: an increasing ramp finishes.  If every reading of the clock is
    more than [msWait] after the one before, then
    [accelerate(speedFrom, speedTo, msWait)] with [speedFrom < speedTo],
    polled from an armed motor, returns [false] on exactly
    [speedTo - speedFrom + 1] calls and [true] on the next one; it has
    then entered [run] with [speedFrom, speedFrom + 1, ..., speedTo + 1],
    once each and in this order, has never entered [brake], and the motor
    is armed again. *)
Theorem increasing_ramp_completes speedFrom speedTo msWait w :
  speedFrom < speedTo ->
  _firstRun (self w) = true ->
  (forall i, (reads w <= i)%nat -> ticks w (S i) - ticks w i > msWait) ->
  let n := Z.to_nat (speedTo - speedFrom + 1) in
  exists w',
    poll (accelerate speedFrom speedTo msWait) (S n) w
      = Ok (repeat false n ++ [true], w') /\
    run_calls (trace w') = run_calls (trace w) ++ counting_up speedFrom (S n) /\
    brake_calls (trace w') = brake_calls (trace w) /\
    _firstRun (self w') = true /\
    _sp (self w') = speedTo + 1.
Proof.
  intros Hlt Harmed Hclk. cbv zeta.
  destruct (accelerate_up_fields speedFrom speedTo msWait w Hlt (or_introl Harmed))
    as (w1 & E & Ht & Hm1 & Hrc & Hbc & Hf & Hr & Hs & Hp1).
  unfold ramp_speed, cmp_read, anchor_of in *. rewrite Harmed in *.
  assert (Hp : (speedTo <? speedFrom) = false) by lia.
  assert (Hst : (ticks w (S (reads w)) - ticks w (reads w) >? msWait) = true).
  { specialize (Hclk (reads w) ltac:(lia)). lia. }
  rewrite Hp, Hst in *.
  replace (Z.to_nat (speedTo - speedFrom + 1))
    with (S (Z.to_nat (speedTo - speedFrom))) by lia.
  destruct (ramp_up_in_flight speedFrom speedTo msWait
              (Z.to_nat (speedTo - speedFrom)) w1)
    as (w' & E' & Hrc' & Hbc' & Hf' & Hs' & _); try assumption.
  - intros i Hi. rewrite Ht. apply Hclk. lia.
  - rewrite Ht, Hr, Hp1. apply Hclk. lia.
  - rewrite Hs. lia.
  - exists w'. rewrite poll_S, E, E'. cbn [repeat app].
    split; [reflexivity|]. split; [|split; [|split]].
    + rewrite Hrc', Hrc, Hs, <- app_assoc.
      rewrite (counting_up_S speedFrom). reflexivity.
    + congruence.
    + exact Hf'.
    + exact Hs'.
Qed.

Lemma increasing_ramp_completes_witness :
  let w := init_world motorB (steady_clock 0 61) in
  0 < 3 /\ _firstRun (self w) = true /\
  (forall i, (reads w <= i)%nat -> ticks w (S i) - ticks w i > 60) /\
  exists w',
    poll (accelerate 0 3 60) 5 w = Ok ([false; false; false; false; true], w') /\
    run_calls (trace w') = [0; 1; 2; 3; 4].
Proof.
  cbv zeta.
  assert (H1 : 0 < 3) by lia.
  assert (H2 : _firstRun (self (init_world motorB (steady_clock 0 61))) = true)
    by reflexivity.
  assert (H3 : forall i, (reads (init_world motorB (steady_clock 0 61)) <= i)%nat ->
            ticks (init_world motorB (steady_clock 0 61)) (S i) -
            ticks (init_world motorB (steady_clock 0 61)) i > 60).
  { intros i _. cbn [ticks init_world]. unfold steady_clock. lia. }
  split; [exact H1|]. split; [exact H2|]. split; [exact H3|].
  destruct (increasing_ramp_completes 0 3 60 _ H1 H2 H3) as (w' & E & Hrc & _).
  exists w'. split; [exact E|exact Hrc].
Defined.

Lemma ramp_down_in_flight speedFrom speedTo msWait : forall m w,
  speedFrom > speedTo ->
  _firstRun (self w) = false -> _accelMode (self w) = 1 ->
  (forall i, (reads w <= i)%nat -> ticks w (S i) - ticks w i > msWait) ->
  ticks w (reads w) - _msPrevious (self w) > msWait ->
  _sp (self w) = speedTo - 1 + Z.of_nat m ->
  exists w',
    poll (accelerate speedFrom speedTo msWait) (S m) w
      = Ok (repeat false m ++ [true], w') /\
    run_calls (trace w') =
      run_calls (trace w) ++ counting_down (_sp (self w)) (S m) /\
    brake_calls (trace w') = brake_calls (trace w) /\
    _firstRun (self w') = true /\ _sp (self w') = speedTo - 1 /\
    reads w' = (reads w + m)%nat.
Proof.
  induction m as [|m IH]; intros w Hgt Hfr Hmode Hclk Hj Hsp.
  - destruct (accelerate_down_fields speedFrom speedTo msWait w Hgt (or_intror Hmode))
      as (w' & E & _ & _ & Hrc & Hbc & Hf & Hr & Hs & _).
    unfold ramp_speed, cmp_read in *. rewrite Hfr in *.
    assert (Hp : (_sp (self w) <? speedTo) = true) by lia.
    rewrite Hp in *.
    exists w'. rewrite poll_S, E. cbn [poll repeat app]. unfold ret.
    split; [reflexivity|]. split; [|split; [|split; [|split]]].
    + rewrite Hrc. unfold counting_down. cbn. rewrite Z.sub_0_r. reflexivity.
    + exact Hbc.
    + exact Hf.
    + rewrite Hs. lia.
    + rewrite Hr. lia.
  - destruct (accelerate_down_fields speedFrom speedTo msWait w Hgt (or_intror Hmode))
      as (w1 & E & Ht & Hm1 & Hrc & Hbc & Hf & Hr & Hs & Hp1).
    unfold ramp_speed, cmp_read, anchor_of in *. rewrite Hfr in *.
    assert (Hp : (_sp (self w) <? speedTo) = false) by lia.
    assert (Hst : (ticks w (reads w) - _msPrevious (self w) >? msWait) = true)
      by lia.
    rewrite Hp, Hst in *.
    destruct (IH w1) as (w' & E' & Hrc' & Hbc' & Hf' & Hs' & Hr'); try assumption.
    + intros i Hi. rewrite Ht. apply Hclk. lia.
    + rewrite Ht, Hr, Hp1. apply Hclk. lia.
    + rewrite Hs. lia.
    + exists w'. rewrite poll_S, E, E'. cbn [repeat app].
      split; [reflexivity|]. split; [|split; [|split; [|split]]].
      * rewrite Hrc', Hrc, Hs, <- app_assoc.
        rewrite (counting_down_S (_sp (self w)) (S m)). reflexivity.
      * congruence.
      * exact Hf'.
      * exact Hs'.
      * rewrite Hr', Hr. lia.
Qed.

(** X6: a decreasing ramp finishes.  Under the same condition on the
    clock, [accelerate(speedFrom, speedTo, msWait)] with
    [speedFrom > speedTo], polled from an armed motor, returns [false] on
    exactly [speedFrom - speedTo + 1] calls and [true] on the next one,
    having entered [run] with [speedFrom, speedFrom - 1, ..., speedTo - 1]
    in this order; it does not brake, and the motor is armed again. *)
Theorem decreasing_ramp_completes speedFrom speedTo msWait w :
  speedFrom > speedTo ->
  _firstRun (self w) = true ->
  (forall i, (reads w <= i)%nat -> ticks w (S i) - ticks w i > msWait) ->
  let n := Z.to_nat (speedFrom - speedTo + 1) in
  exists w',
    poll (accelerate speedFrom speedTo msWait) (S n) w
      = Ok (repeat false n ++ [true], w') /\
    run_calls (trace w') = run_calls (trace w) ++ counting_down speedFrom (S n) /\
    brake_calls (trace w') = brake_calls (trace w) /\
    _firstRun (self w') = true /\
    _sp (self w') = speedTo - 1.
Proof.
  intros Hgt Harmed Hclk. cbv zeta.
  destruct (accelerate_down_fields speedFrom speedTo msWait w Hgt (or_introl Harmed))
    as (w1 & E & Ht & Hm1 & Hrc & Hbc & Hf & Hr & Hs & Hp1).
  unfold ramp_speed, cmp_read, anchor_of in *. rewrite Harmed in *.
  assert (Hp : (speedFrom <? speedTo) = false) by lia.
  assert (Hst : (ticks w (S (reads w)) - ticks w (reads w) >? msWait) = true).
  { specialize (Hclk (reads w) ltac:(lia)). lia. }
  rewrite Hp, Hst in *.
  replace (Z.to_nat (speedFrom - speedTo + 1))
    with (S (Z.to_nat (speedFrom - speedTo))) by lia.
  destruct (ramp_down_in_flight speedFrom speedTo msWait
              (Z.to_nat (speedFrom - speedTo)) w1)
    as (w' & E' & Hrc' & Hbc' & Hf' & Hs' & _); try assumption.
  - intros i Hi. rewrite Ht. apply Hclk. lia.
  - rewrite Ht, Hr, Hp1. apply Hclk. lia.
  - rewrite Hs. lia.
  - exists w'. rewrite poll_S, E, E'. cbn [repeat app].
    split; [reflexivity|]. split; [|split; [|split]].
    + rewrite Hrc', Hrc, Hs, <- app_assoc.
      rewrite (counting_down_S speedFrom). reflexivity.
    + congruence.
    + exact Hf'.
    + exact Hs'.
Qed.

Lemma decreasing_ramp_completes_witness :
  let w := init_world motorB (steady_clock 0 101) in
  2 > 0 /\ _firstRun (self w) = true /\
  (forall i, (reads w <= i)%nat -> ticks w (S i) - ticks w i > 100) /\
  exists w',
    poll (accelerate 2 0 100) 4 w = Ok ([false; false; false; true], w') /\
    run_calls (trace w') = [2; 1; 0; -1].
Proof.
  cbv zeta.
  assert (H1 : 2 > 0) by lia.
  assert (H2 : _firstRun (self (init_world motorB (steady_clock 0 101))) = true)
    by reflexivity.
  assert (H3 : forall i, (reads (init_world motorB (steady_clock 0 101)) <= i)%nat ->
            ticks (init_world motorB (steady_clock 0 101)) (S i) -
            ticks (init_world motorB (steady_clock 0 101)) i > 100).
  { intros i _. cbn [ticks init_world]. unfold steady_clock. lia. }
  split; [exact H1|]. split; [exact H2|]. split; [exact H3|].
  destruct (decreasing_ramp_completes 2 0 100 _ H1 H2 H3) as (w' & E & Hrc & _).
  exists w'. split; [exact E|exact Hrc].
Defined.

(** A poll whose first result is [false] and that goes on: the pieces. *)
Lemma poll_S_inv op n w b bs w' :
  poll op (S n) w = Ok (b :: bs, w') ->
  exists w1, op w = Ok (b, w1) /\ poll op n w1 = Ok (bs, w').
Proof.
  rewrite poll_S. destruct (op w) as [[b0 w0]|e]; [|discriminate].
  destruct (poll op n w0) as [[bs0 w2]|e] eqn:Hn; [|discriminate].
  intros H. injection H as <- <- <-. exists w0. split; [reflexivity|exact Hn].
Qed.

Lemma ramp_up_span speedFrom speedTo msWait a0 : forall k w w',
  speedFrom < speedTo ->
  _firstRun (self w) = false -> _accelMode (self w) = 0 ->
  _sp (self w) <= speedTo + 1 ->
  _msPrevious (self w) - a0 >= (_sp (self w) - speedFrom) * (msWait + 1) ->
  poll (accelerate speedFrom speedTo msWait) (S k) w
    = Ok (repeat false k ++ [true], w') ->
  _msPrevious (self w') - a0 >= (speedTo + 1 - speedFrom) * (msWait + 1) /\
  _sp (self w') = speedTo + 1 /\
  Z.of_nat k >= speedTo + 1 - _sp (self w).
Proof.
  induction k as [|k IH]; intros w w' Hlt Hfr Hmode Hle Hinv Hpoll.
  - cbn [repeat app] in Hpoll.
    destruct (poll_S_inv _ _ _ _ _ _ Hpoll) as (w1 & E1 & E2).
    cbn in E2. unfold ret in E2. injection E2 as <-.
    destruct (accelerate_up_fields speedFrom speedTo msWait w Hlt (or_intror Hmode))
      as (w2 & E & _ & _ & _ & _ & _ & _ & Hs & Hp).
    unfold ramp_speed, anchor_of in *. rewrite Hfr in *.
    rewrite E in E1. injection E1 as Hb <-.
    rewrite Hb in *. rewrite Hs, Hp.
    assert (_sp (self w) = speedTo + 1) by lia.
    split; [|split]; [|assumption|lia].
    replace (speedTo + 1) with (_sp (self w)) by assumption. exact Hinv.
  - cbn [repeat app] in Hpoll.
    destruct (poll_S_inv _ _ _ _ _ _ Hpoll) as (w1 & E1 & E2).
    destruct (accelerate_up_fields speedFrom speedTo msWait w Hlt (or_intror Hmode))
      as (w2 & E & _ & Hm & _ & _ & Hf & _ & Hs & Hp).
    unfold ramp_speed, anchor_of, cmp_read in *. rewrite Hfr in *.
    rewrite E in E1. injection E1 as Hb <-.
    rewrite Hb in *.
    destruct (IH w2 w' Hlt Hf Hm) as (H1 & H2 & H3).
    + rewrite Hs. destruct (_ >? msWait); lia.
    + rewrite Hs, Hp. destruct (_ >? msWait) eqn:Hst; [|exact Hinv].
      replace ((_sp (self w) + 1 - speedFrom) * (msWait + 1))
        with ((_sp (self w) - speedFrom) * (msWait + 1) + (msWait + 1)) by ring.
      lia.
    + exact E2.
    + split; [exact H1|]. split; [exact H2|].
      rewrite Hs in H3. destruct (_ >? msWait); lia.
Qed.

(** X7: an increasing ramp takes its time, whatever the clock does.  If
    [accelerate(speedFrom, speedTo, msWait)] with [speedFrom < speedTo],
    polled from an armed motor, returns [true] for the first time on call
    [k + 1], then at least [speedTo - speedFrom + 1] calls came before,
    and the last anchor is at least [(speedTo - speedFrom + 1) *
    (msWait + 1)] ms after the anchor of the first call: the ramp makes
    [speedTo - speedFrom + 1] steps of more than [msWait] ms each. *)
Theorem increasing_ramp_duration speedFrom speedTo msWait w k w' :
  speedFrom < speedTo ->
  _firstRun (self w) = true ->
  poll (accelerate speedFrom speedTo msWait) (S k) w
    = Ok (repeat false k ++ [true], w') ->
  _msPrevious (self w') - ticks w (reads w)
    >= (speedTo - speedFrom + 1) * (msWait + 1) /\
  Z.of_nat k >= speedTo - speedFrom + 1 /\
  _sp (self w') = speedTo + 1.
Proof.
  intros Hlt Harmed Hpoll.
  destruct (accelerate_up_fields speedFrom speedTo msWait w Hlt (or_introl Harmed))
    as (w1 & E & _ & Hm & _ & _ & Hf & _ & Hs & Hp).
  unfold ramp_speed, anchor_of, cmp_read in *. rewrite Harmed in *.
  assert (Hb : (speedTo <? speedFrom) = false) by lia.
  rewrite Hb in *.
  destruct k as [|k].
  - cbn [repeat app] in Hpoll.
    destruct (poll_S_inv _ _ _ _ _ _ Hpoll) as (w2 & E1 & _).
    rewrite E in E1. discriminate E1.
  - cbn [repeat app] in Hpoll.
    destruct (poll_S_inv _ _ _ _ _ _ Hpoll) as (w2 & E1 & E2).
    rewrite E in E1. injection E1 as <-.
    destruct (ramp_up_span speedFrom speedTo msWait (ticks w (reads w)) k w1 w'
                Hlt Hf Hm) as (H1 & H2 & H3).
    + rewrite Hs. destruct (_ >? msWait); lia.
    + rewrite Hs, Hp. destruct (_ >? msWait) eqn:Hst; lia.
    + exact E2.
    + split; [|split; [|exact H2]].
      * replace (speedTo - speedFrom + 1) with (speedTo + 1 - speedFrom) by ring.
        exact H1.
      * rewrite Hs in H3. destruct (_ >? msWait); lia.
Qed.

Lemma increasing_ramp_duration_witness :
  let w := init_world motorB (steady_clock 0 61) in
  0 < 3 /\ _firstRun (self w) = true /\
  exists w',
    poll (accelerate 0 3 60) 5 w = Ok (repeat false 4 ++ [true], w') /\
    _msPrevious (self w') - ticks w (reads w) >= (3 - 0 + 1) * (60 + 1) /\
    Z.of_nat 4 >= 3 - 0 + 1.
Proof.
  cbv zeta.
  assert (H1 : 0 < 3) by lia.
  assert (H2 : _firstRun (self (init_world motorB (steady_clock 0 61))) = true)
    by reflexivity.
  assert (E : exists w',
             poll (accelerate 0 3 60) 5 (init_world motorB (steady_clock 0 61))
             = Ok (repeat false 4 ++ [true], w'))
    by (eexists; vm_compute; reflexivity).
  destruct E as [w' E].
  split; [exact H1|]. split; [exact H2|].
  exists w'. split; [exact E|].
  destruct (increasing_ramp_duration 0 3 60 _ 4 w' H1 H2 E) as (Ha & Hb & _).
  split; [exact Ha|exact Hb].
Defined.

(** ** Mixing timed operations *)

(** X8: [waitFor] called while a [runFor] is in flight on the same motor
    does not brake and writes nothing: the motor keeps running at the
    duty of [speed], and the wait is measured from the anchor of the
    [runFor], not from the call of [waitFor]. *)
Theorem waitFor_during_runFor_does_not_brake speed msToRun msToWait w :
  _firstRun (self w) = true ->
  0 <= speed ->
  ticks w (S (reads w)) - ticks w (reads w) <= msToRun ->
  exists w1 w2,
    runFor speed msToRun w = Ok (false, w1) /\
    waitFor msToWait w1 =
      Ok (ticks w (S (S (reads w))) - ticks w (reads w) >? msToWait, w2) /\
    trace w2 = trace w1 /\
    brake_calls (trace w2) = brake_calls (trace w) /\
    duty (self w2) = duty_of speed (self w) /\
    pins (self w2) = pattern (_rotation (self w)).
Proof.
  intros Harmed Hs Hle.
  destruct (runFor_fields speed msToRun w)
    as (w1 & E1 & _ & _ & Hp1 & Hd1 & Hf1 & Hm1 & _ & _ & Ht1 & Hr1).
  destruct (runFor_call speed msToRun w) as (w1' & E1' & _ & _ & _ & _ & _ & Hbc & _).
  rewrite E1 in E1'. injection E1' as <-.
  unfold anchor_of, cmp_read in *. rewrite Harmed in *.
  assert (He : (ticks w (S (reads w)) - ticks w (reads w) >? msToRun) = false)
    by lia.
  assert (Hs' : (speed >=? 0) = true) by lia.
  rewrite He, Hs' in *.
  destruct (waitFor_fields msToWait w1)
    as (w2 & E2 & _ & _ & Hp2 & Hd2 & _).
  destruct (waitFor_call msToWait w1) as (w2' & E2' & _ & _ & _ & _ & Htr & _).
  rewrite E2 in E2'. injection E2' as <-.
  unfold anchor_of, cmp_read in *. rewrite Hf1 in *.
  rewrite app_nil_r in Htr.
  exists w1, w2. split; [exact E1|]. split.
  - rewrite E2, Ht1, Hr1, Hm1. reflexivity.
  - split; [exact Htr|]. split; [|split].
    + rewrite Htr, Hbc. lia.
    + rewrite Hd2. exact Hd1.
    + rewrite Hp2. exact Hp1.
Qed.

Lemma waitFor_during_runFor_does_not_brake_witness :
  let w := init_world motorA (steady_clock 0 400) in
  _firstRun (self w) = true /\ 0 <= 30 /\
  ticks w (S (reads w)) - ticks w (reads w) <= 1000 /\
  exists w1 w2,
    runFor 30 1000 w = Ok (false, w1) /\
    waitFor 500 w1 = Ok (true, w2) /\
    duty (self w2) = 307 /\ pins (self w2) = (1, 0).
Proof.
  cbv zeta.
  assert (H1 : _firstRun (self (init_world motorA (steady_clock 0 400))) = true)
    by reflexivity.
  assert (H2 : 0 <= 30) by lia.
  assert (H3 : ticks (init_world motorA (steady_clock 0 400))
                     (S (reads (init_world motorA (steady_clock 0 400)))) -
               ticks (init_world motorA (steady_clock 0 400))
                     (reads (init_world motorA (steady_clock 0 400))) <= 1000)
    by (vm_compute; discriminate).
  split; [exact H1|]. split; [exact H2|]. split; [exact H3|].
  destruct (waitFor_during_runFor_does_not_brake 30 1000 500 _ H1 H2 H3)
    as (w1 & w2 & E1 & E2 & _ & _ & Hd & Hp).
  exists w1, w2. split; [exact E1|]. split; [exact E2|].
  split; [rewrite Hd; reflexivity|rewrite Hp; reflexivity].
Defined.

(** ** The task of motor A *)

Lemma run_task_app task a : forall b st w,
  run_task task (a + b) st w =
  match run_task task a st w with
  | Ok (st1, w1) => run_task task b st1 w1
  | Raise e => Raise e
  end.
Proof.
  induction a as [|a IH]; intros b st w.
  - reflexivity.
  - cbn [Nat.add run_task]. unfold bind.
    destruct (task st w) as [[st1 w1]|e]; [apply IH|reflexivity].
Qed.

Lemma poll_preserves op (I : World -> Prop) :
  (forall w b w', I w -> op w = Ok (b, w') -> I w') ->
  forall n w bs w', I w -> poll op n w = Ok (bs, w') -> I w'.
Proof.
  intros Hop. induction n as [|n IH]; intros w bs w' Hw Hp.
  - cbn in Hp. unfold ret in Hp. injection Hp as <- <-. exact Hw.
  - rewrite poll_S in Hp.
    destruct (op w) as [[b w1]|e] eqn:E; [|discriminate].
    destruct (poll op n w1) as [[bs1 w2]|e] eqn:En; [|discriminate].
    injection Hp as <- <-. eapply IH; [|exact En]. eapply Hop; eassumption.
Qed.

Lemma taskA_running speed msRun msStop : forall k w wk,
  poll (runFor speed msRun) k w = Ok (repeat false k, wk) ->
  run_task (taskA speed msRun msStop) k 0 w = Ok (0, wk).
Proof.
  induction k as [|k IH]; intros w wk Hp.
  - cbn in Hp. unfold ret in Hp. injection Hp as <-. reflexivity.
  - cbn [repeat] in Hp.
    destruct (poll_S_inv _ _ _ _ _ _ Hp) as (w1 & E1 & E2).
    cbn [run_task]. unfold bind at 1. unfold taskA.
    cbn [Z.eqb]. unfold bind at 1. unfold bind at 1. rewrite E1.
    unfold ret at 1. cbn [Z.eqb]. unfold ret at 1.
    apply IH. exact E2.
Qed.

Lemma taskA_waiting speed msRun msStop : forall k w wk,
  poll (waitFor msStop) k w = Ok (repeat false k, wk) ->
  run_task (taskA speed msRun msStop) k 1 w = Ok (1, wk).
Proof.
  induction k as [|k IH]; intros w wk Hp.
  - cbn in Hp. unfold ret in Hp. injection Hp as <-. reflexivity.
  - cbn [repeat] in Hp.
    destruct (poll_S_inv _ _ _ _ _ _ Hp) as (w1 & E1 & E2).
    cbn [run_task]. unfold bind at 1. unfold taskA.
    cbn [Z.eqb Pos.eqb]. unfold bind at 1. unfold ret at 1.
    cbn [Z.eqb Pos.eqb]. unfold bind at 1. rewrite E1.
    unfold ret at 1.
    apply IH. exact E2.
Qed.

Lemma taskA_run_done speed msRun msStop w w1 :
  runFor speed msRun w = Ok (true, w1) ->
  taskA speed msRun msStop 0 w = taskA speed msRun msStop 1 w1.
Proof.
  intros E. unfold taskA. cbn [Z.eqb Pos.eqb].
  unfold bind at 1. unfold bind at 1. rewrite E.
  unfold ret at 1. unfold bind at 3. unfold ret at 3. reflexivity.
Qed.

Lemma taskA_wait_done speed msRun msStop w w1 :
  waitFor msStop w = Ok (true, w1) ->
  taskA speed msRun msStop 1 w =
  Ok (0, mkWorld (with_rotation (if _rotation (self w1) =? CCW then CW else CCW)
                                (self w1))
                 (ticks w1) (reads w1) (trace w1)).
Proof.
  intros E. unfold taskA. cbn [Z.eqb Pos.eqb].
  unfold bind at 1. unfold ret at 1. cbn [Z.eqb Pos.eqb].
  unfold bind at 1. rewrite E. reflexivity.
Qed.

(** X9: one full cycle of [taskA] from state 0 on an armed motor.  Let
    the run phase last [n + 1] calls (readings as for [runFor]) and the
    wait phase, whose anchor is the reading taken right after the
    [runFor] has finished, [m] further calls.  Then after [n] calls the
    task is still in state 0 and has not braked; after [n + 1 + m] calls
    it is back in state 0 with the motor armed and braked (both pins low,
    duty 0) and the stored rotation reversed; [run] was entered [n + 1]
    times with [speed] (never, if [speed] is negative) and [brake] twice:
    once by the [runFor] that finished and once by the [waitFor] that
    started in the same call. *)
Theorem taskA_cycle speed msRun msStop w n m :
  _firstRun (self w) = true ->
  _rotation (self w) = CW \/ _rotation (self w) = CCW ->
  (forall j, (j < n)%nat ->
             ticks w (S (reads w) + j) - ticks w (reads w) <= msRun) ->
  ticks w (S (reads w) + n) - ticks w (reads w) > msRun ->
  (forall j, (j < m)%nat ->
             ticks w (reads w + n + 3 + j) - ticks w (reads w + n + 2)
             <= msStop) ->
  ticks w (reads w + n + 3 + m) - ticks w (reads w + n + 2) > msStop ->
  (exists wn,
      run_task (taskA speed msRun msStop) n 0 w = Ok (0, wn) /\
      brake_calls (trace wn) = brake_calls (trace w)) /\
  exists w',
    run_task (taskA speed msRun msStop) (S n + m) 0 w = Ok (0, w') /\
    _rotation (self w') = (if _rotation (self w) =? CCW then CW else CCW) /\
    _firstRun (self w') = true /\
    pins (self w') = (0, 0) /\ duty (self w') = 0 /\
    brake_calls (trace w') = (brake_calls (trace w) + 2)%nat /\
    run_calls (trace w') =
      run_calls (trace w) ++ (if speed >=? 0 then repeat speed (S n) else []) /\
    reads w' = (reads w + n + m + 4)%nat.
Proof.
  intros Harmed Hrot Hrun Hrun_end Hwait Hwait_end.
  assert (Ha : anchor_of w = ticks w (reads w))
    by (unfold anchor_of; rewrite Harmed; reflexivity).
  assert (Hc : cmp_read w = S (reads w))
    by (unfold cmp_read; rewrite Harmed; reflexivity).
  (* the n calls that keep running *)
  destruct (runFor_polls_false speed msRun n w)
    as (wn & Hpn & Han & Hcn & Htn & Hrcn & Hbcn).
  { intros j Hj. rewrite Ha, Hc. apply Hrun; assumption. }
  assert (Hrotn : _rotation (self wn) = _rotation (self w)).
  { apply (poll_preserves (runFor speed msRun)
             (fun w0 => _rotation (self w0) = _rotation (self w)))
      with (n := n) (w := w) (bs := repeat false n); [|reflexivity|exact Hpn].
    intros w0 b w0' H0 E0.
    destruct (runFor_fields speed msRun w0) as (w0'' & E0' & _ & Hr0 & _).
    rewrite E0 in E0'. injection E0' as _ <-.
    rewrite Hr0, H0. destruct (speed >=? 0); [|reflexivity].
    apply stored_direction_fixed; assumption. }
  split; [exists wn; split; [apply taskA_running; exact Hpn|exact Hbcn]|].
  (* the call in which runFor finishes *)
  destruct (runFor_fields speed msRun wn)
    as (wr & Er & _ & Hrotr & _ & _ & Hfr & _ & _ & _ & Htr & Hrr).
  destruct (runFor_call speed msRun wn)
    as (wr' & Er' & _ & _ & _ & _ & Hrcr & Hbcr & _).
  rewrite Er in Er'. injection Er' as <-.
  assert (He : (ticks wn (cmp_read wn) - anchor_of wn >? msRun) = true).
  { rewrite Han, Hcn, Htn, Ha, Hc. lia. }
  rewrite He in *.
  assert (Hrotr' : _rotation (self wr) = _rotation (self w)).
  { rewrite Hrotr, Hrotn. destruct (speed >=? 0); [|reflexivity].
    apply stored_direction_fixed; assumption. }
  assert (Har : anchor_of wr = ticks w (reads w + n + 2)).
  { unfold anchor_of. rewrite Hfr, Htr, Htn, Hrr, Hcn, Hc. f_equal. lia. }
  assert (Hcr : cmp_read wr = (reads w + n + 3)%nat).
  { unfold cmp_read. rewrite Hfr, Hrr, Hcn, Hc. lia. }
  (* the m calls that keep waiting *)
  destruct (waitFor_polls_false msStop m wr)
    as (wm & Hpm & Ham & Hcm & Htm & Hfm & Htrm & Hpdm).
  { intros j Hj. rewrite Har, Hcr, Htr, Htn. apply Hwait; assumption. }
  rewrite Hfr in Hfm, Htrm, Hpdm. cbn [andb] in Hfm, Htrm, Hpdm.
  assert (Hrotm : _rotation (self wm) = _rotation (self w)).
  { apply (poll_preserves (waitFor msStop)
             (fun w0 => _rotation (self w0) = _rotation (self w)))
      with (n := m) (w := wr) (bs := repeat false m); [|exact Hrotr'|exact Hpm].
    intros w0 b w0' H0 E0.
    destruct (waitFor_fields msStop w0) as (w0'' & E0' & _ & Hr0 & _).
    rewrite E0 in E0'. injection E0' as _ <-. congruence. }
  (* the call in which waitFor finishes *)
  destruct (waitFor_fields msStop wm)
    as (wz & Ez & _ & Hrotz & Hpz & Hdz & Hfz & _ & _ & _ & Htz & Hrz).
  destruct (waitFor_call msStop wm) as (wz' & Ez' & _ & _ & _ & _ & Htrz & _).
  rewrite Ez in Ez'. injection Ez' as <-.
  assert (He2 : (ticks wm (cmp_read wm) - anchor_of wm >? msStop) = true).
  { rewrite Ham, Hcm, Htm, Har, Hcr, Htr, Htn. lia. }
  rewrite He2 in *.
  assert (F : run_task (taskA speed msRun msStop) (S m) 1 wr =
              Ok (0, mkWorld (with_rotation
                                (if _rotation (self wz) =? CCW then CW else CCW)
                                (self wz))
                             (ticks wz) (reads wz) (trace wz))).
  { replace (S m) with (m + 1)%nat by lia.
    rewrite run_task_app, (taskA_waiting _ msRun _ _ _ _ Hpm).
    cbn [run_task]. unfold bind at 1.
    rewrite (taskA_wait_done _ _ _ _ _ Ez). reflexivity. }
  eexists. split.
  - replace (S n + m)%nat with (n + S m)%nat by lia.
    rewrite run_task_app, (taskA_running _ _ _ _ _ _ Hpn).
    cbn [run_task]. unfold bind at 1.
    rewrite (taskA_run_done _ _ msStop _ _ Er).
    exact F.
  - cbn [self reads trace].
    assert (Hbe : brake_calls brake_events = 1%nat) by reflexivity.
    assert (Hre : run_calls brake_events = []) by reflexivity.
    split; [unfold with_rotation; cbn [_rotation]; rewrite Hrotz, Hrotm; reflexivity|].
    split; [exact Hfz|].
    split; [|split; [|split; [|split]]].
    + change (pins (self wz) = (0, 0)). rewrite Hpz, Hfm.
      destruct m; cbn [Nat.eqb negb] in *; [reflexivity|apply Hpdm].
    + change (duty (self wz) = 0). rewrite Hdz, Hfm.
      destruct m; cbn [Nat.eqb negb] in *; [reflexivity|apply Hpdm].
    + rewrite Htrz, Htrm, Hfm, !brake_calls_app, Hbcr, Hbcn.
      destruct m; cbn [Nat.eqb negb]; cbn [brake_calls]; rewrite ?Hbe; lia.
    + rewrite Htrz, Htrm, Hfm, !run_calls_app, Hrcr, Hrcn.
      destruct m; cbn [Nat.eqb negb]; cbn [run_calls]; rewrite ?Hre, !app_nil_r;
        rewrite <- app_assoc; destruct (speed >=? 0); try reflexivity;
        change (repeat speed (S n)) with (speed :: repeat speed n);
        rewrite repeat_cons; reflexivity.
    + rewrite Hrz, Hcm, Hcr. lia.
Qed.

Lemma taskA_cycle_witness :
  let w := init_world motorA (steady_clock 0 400) in
  _firstRun (self w) = true /\
  (_rotation (self w) = CW \/ _rotation (self w) = CCW) /\
  (forall j, (j < 2)%nat ->
             ticks w (S (reads w) + j) - ticks w (reads w) <= 1000) /\
  ticks w (S (reads w) + 2) - ticks w (reads w) > 1000 /\
  (forall j, (j < 1)%nat ->
             ticks w (reads w + 2 + 3 + j) - ticks w (reads w + 2 + 2) <= 500) /\
  ticks w (reads w + 2 + 3 + 1) - ticks w (reads w + 2 + 2) > 500 /\
  exists w',
    run_task (taskA 30 1000 500) 4 0 w = Ok (0, w') /\
    _rotation (self w') = CCW /\ pins (self w') = (0, 0).
Proof.
  cbv zeta.
  set (w := init_world motorA (steady_clock 0 400)).
  assert (H1 : _firstRun (self w) = true) by reflexivity.
  assert (H2 : _rotation (self w) = CW \/ _rotation (self w) = CCW)
    by (left; reflexivity).
  assert (H3 : forall j, (j < 2)%nat ->
             ticks w (S (reads w) + j) - ticks w (reads w) <= 1000).
  { intros j Hj. destruct j as [|[|j]]; [vm_compute; discriminate ..|lia]. }
  assert (H4 : ticks w (S (reads w) + 2) - ticks w (reads w) > 1000)
    by reflexivity.
  assert (H5 : forall j, (j < 1)%nat ->
             ticks w (reads w + 2 + 3 + j) - ticks w (reads w + 2 + 2) <= 500).
  { intros j Hj. destruct j as [|j]; [vm_compute; discriminate|lia]. }
  assert (H6 : ticks w (reads w + 2 + 3 + 1) - ticks w (reads w + 2 + 2) > 500)
    by reflexivity.
  split; [exact H1|]. split; [exact H2|]. split; [exact H3|].
  split; [exact H4|]. split; [exact H5|]. split; [exact H6|].
  destruct (taskA_cycle 30 1000 500 w 2 1 H1 H2 H3 H4 H5 H6)
    as (_ & w' & E & Hr & _ & Hp & _).
  exists w'. split; [exact E|]. split; [exact Hr|exact Hp].
Defined.

(** ** The main loop *)

Lemma wellformed_step s s' :
  wellformed s ->
  (_rotation s' = _rotation s \/
   _rotation s' = stored_direction (_rotation s) \/
   _rotation s' = (if _rotation s =? CCW then CW else CCW)) ->
  (pins s' = pins s \/ pins s' = (0, 0) \/ pins s' = pattern (_rotation s)) ->
  wellformed s'.
Proof.
  intros [Hr Hp] Hr' Hp'. split.
  - destruct Hr' as [H|[H|H]]; rewrite H.
    + exact Hr.
    + apply stored_direction_valid.
    + destruct (_ =? CCW); auto.
  - destruct Hp' as [H|[H|H]]; rewrite H; auto.
    destruct (pattern_exclusive (_rotation s)); auto.
Qed.

Lemma later_than_refl w : later_than w w.
Proof. split; [reflexivity|lia]. Qed.

Lemma later_than_trans w1 w2 w3 :
  later_than w1 w2 -> later_than w2 w3 -> later_than w1 w3.
Proof. intros [A1 A2] [B1 B2]. split; [congruence|lia]. Qed.

Lemma later_than_cmp_read w w' :
  ticks w' = ticks w -> reads w' = S (cmp_read w) -> later_than w w'.
Proof.
  intros Ht Hr. split; [exact Ht|]. rewrite Hr. unfold cmp_read.
  destruct (_firstRun (self w)); lia.
Qed.

Lemma taskA_keeps_invariant stA w0 :
  hoare (fun w => motorA_invariant stA (self w) /\ later_than w0 w)
        (taskA 30 1000 500 stA)
        (fun stA' w' => motorA_invariant stA' (self w') /\ later_than w0 w').
Proof.
  assert (Hrun : forall st,
    hoare (fun w => motorA_invariant st (self w) /\ later_than w0 w)
          (runFor 30 1000)
          (fun _ w' => (forall st', st' = 0 \/ st' = 1 ->
                                    motorA_invariant st' (self w')) /\
                       later_than w0 w')).
  { intros st w [(_ & Hmin & Hmax & Hwf & Hd) Hl].
    destruct (runFor_fields 30 1000 w)
      as (w' & E & Hc & Hr & Hp & Hd' & _ & _ & _ & _ & Ht & Hrd).
    eexists _, w'. split; [exact E|]. split.
    2:{ eapply later_than_trans; [exact Hl|].
        apply later_than_cmp_read; assumption. }
    intros st' Hst'.
    destruct Hc as (_ & Hmin' & Hmax' & _).
    split; [exact Hst'|]. split; [congruence|]. split; [congruence|]. split.
    - apply (wellformed_step (self w)); [exact Hwf| |].
      + rewrite Hr. cbn. auto.
      + rewrite Hp. destruct (_ >? 1000); cbn; auto.
    - rewrite Hd'. destruct (_ >? 1000); [auto|]. cbn [Z.geb Z.compare].
      right. unfold duty_of. rewrite Hmin, Hmax. reflexivity. }
  assert (Hwait : forall st,
    hoare (fun w => motorA_invariant st (self w) /\ later_than w0 w)
          (waitFor 500)
          (fun _ w' => (forall st', st' = 0 \/ st' = 1 ->
                                    motorA_invariant st' (self w')) /\
                       later_than w0 w')).
  { intros st w [(_ & Hmin & Hmax & Hwf & Hd) Hl].
    destruct (waitFor_fields 500 w)
      as (w' & E & Hc & Hr & Hp & Hd' & _ & _ & _ & _ & Ht & Hrd).
    eexists _, w'. split; [exact E|]. split.
    2:{ eapply later_than_trans; [exact Hl|].
        apply later_than_cmp_read; assumption. }
    intros st' Hst'.
    destruct Hc as (_ & Hmin' & Hmax' & _).
    split; [exact Hst'|]. split; [congruence|]. split; [congruence|]. split.
    - apply (wellformed_step (self w)); [exact Hwf|auto|].
      rewrite Hp. destruct (_firstRun (self w)); auto.
    - rewrite Hd'. destruct (_firstRun (self w)); auto. }
  assert (Hrev : forall st,
    hoare (fun w => motorA_invariant st (self w) /\ later_than w0 w)
          reverseRotation
          (fun _ w' => motorA_invariant st (self w') /\ later_than w0 w')).
  { intros st w [(Hst & Hmin & Hmax & Hwf & Hd) Hl].
    destruct (reverseRotation_fields w)
      as (w' & E & Hc & Hr & Hp & Hd' & _ & _ & _ & _ & Ht & Hrd & _).
    eexists _, w'. split; [exact E|]. split.
    2:{ eapply later_than_trans; [exact Hl|]. split; [exact Ht|lia]. }
    destruct Hc as (_ & Hmin' & Hmax' & _).
    split; [exact Hst|]. split; [congruence|]. split; [congruence|]. split.
    - apply (wellformed_step (self w)); [exact Hwf|auto|auto].
    - rewrite Hd'. exact Hd. }
  unfold taskA.
  apply hoare_bind
    with (Q := fun st w => motorA_invariant st (self w) /\ later_than w0 w).
  - destruct (stA =? 0) eqn:H0.
    + eapply hoare_bind; [apply Hrun|].
      intros done w [Hw Hl]. eexists _, w. split; [reflexivity|].
      split; [|exact Hl]. apply Hw. destruct done; [auto|]. left. lia.
    + intros w Hw. exists stA, w. split; [reflexivity|exact Hw].
  - intros st. destruct (st =? 1) eqn:H1.
    + eapply hoare_bind; [apply Hwait|].
      intros done. destruct done.
      * apply hoare_bind
          with (Q := fun _ w' => motorA_invariant 0 (self w') /\ later_than w0 w').
        -- eapply hoare_weaken; [apply (Hrev 0)| |].
           ++ intros w [Hw Hl]. split; [apply Hw; auto|exact Hl].
           ++ intros a w Hw. exact Hw.
        -- intros _ w Hw. exists 0, w. split; [reflexivity|exact Hw].
      * intros w [Hw Hl]. eexists _, w. split; [reflexivity|].
        split; [|exact Hl]. apply Hw. right. lia.
    + intros w Hw. exists st, w. split; [reflexivity|exact Hw].
Qed.

Lemma ramp_duty_bounds v s :
  _dutyMin s = 0 -> _dutyMax s = 1023 -> -1 <= v <= 101 ->
  -9 <= duty_of v s <= 1033.
Proof.
  intros Hmin Hmax Hv. unfold duty_of. rewrite Hmin, Hmax. split.
  - change (-9) with (map_value (-1) 0 100 0 1023).
    apply map_value_monotone; lia.
  - change 1033 with (map_value 101 0 100 0 1023).
    apply map_value_monotone; lia.
Qed.

Lemma taskB_ramp_up w :
  motorB_invariant 0 (self w) ->
  exists done w',
    accelerate 0 100 60 w = Ok (done, w') /\
    motorB_invariant (if done then 1 else 0) (self w') /\
    later_than w w'.
Proof.
  intros (Hmin & Hmax & Hwf & Hd & Hph).
  assert (Hph0 : _firstRun (self w) = true \/
                 (_accelMode (self w) = 0 /\ 0 <= _sp (self w) <= 101)).
  { destruct Hph as [[_ H]|[H|[[H _]|H]]]; [exact H|lia..]. }
  assert (Hinv : _firstRun (self w) = true \/ _accelMode (self w) = 0)
    by (destruct Hph0 as [H|[H _]]; auto).
  assert (Hsp : 0 <= ramp_speed 0 w <= 101).
  { unfold ramp_speed. destruct Hph0 as [H|[_ H]].
    - rewrite H. lia.
    - destruct (_firstRun (self w)); lia. }
  destruct (accelerate_fields 0 100 60 w)
    as (b & w' & E & Hc & Hr & Hp & Hd' & _).
  destruct (accelerate_up_fields 0 100 60 w ltac:(lia) Hinv)
    as (w'' & E' & Ht & Hm & _ & _ & Hf & Hrd & Hs & _).
  rewrite E in E'. injection E' as -> <-.
  destruct Hc as (_ & Hmin' & Hmax' & _).
  eexists _, w'. split; [exact E|].
  split.
  2:{ split; [exact Ht|]. rewrite Hrd. unfold cmp_read.
      destruct (_ <? _); destruct (_firstRun (self w)); lia. }
  split; [congruence|]. split; [congruence|]. split; [|split].
  - apply (wellformed_step (self w)); [exact Hwf|auto|auto].
  - rewrite Hd'. apply ramp_duty_bounds; [assumption..|lia].
  - destruct (100 <? ramp_speed 0 w) eqn:Hb; [right; left; reflexivity|].
    left. split; [reflexivity|]. right. split; [exact Hm|].
    rewrite Hs. destruct (_ >? 60); lia.
Qed.

Lemma taskB_ramp_down w :
  motorB_invariant 2 (self w) ->
  exists done w',
    accelerate 50 0 100 w = Ok (done, w') /\
    motorB_invariant (if done then 3 else 2) (self w') /\
    later_than w w'.
Proof.
  intros (Hmin & Hmax & Hwf & Hd & Hph).
  assert (Hph2 : _firstRun (self w) = true \/
                 (_accelMode (self w) = 1 /\ -1 <= _sp (self w) <= 50)).
  { destruct Hph as [[H _]|[H|[[_ H]|H]]]; [lia|lia|exact H|lia]. }
  assert (Hinv : _firstRun (self w) = true \/ _accelMode (self w) = 1)
    by (destruct Hph2 as [H|[H _]]; auto).
  assert (Hsp : -1 <= ramp_speed 50 w <= 50).
  { unfold ramp_speed. destruct Hph2 as [H|[_ H]].
    - rewrite H. lia.
    - destruct (_firstRun (self w)); lia. }
  destruct (accelerate_fields 50 0 100 w)
    as (b & w' & E & Hc & Hr & Hp & Hd' & _).
  destruct (accelerate_down_fields 50 0 100 w ltac:(lia) Hinv)
    as (w'' & E' & Ht & Hm & _ & _ & Hf & Hrd & Hs & _).
  rewrite E in E'. injection E' as -> <-.
  destruct Hc as (_ & Hmin' & Hmax' & _).
  eexists _, w'. split; [exact E|].
  split.
  2:{ split; [exact Ht|]. rewrite Hrd. unfold cmp_read.
      destruct (_ <? _); destruct (_firstRun (self w)); lia. }
  split; [congruence|]. split; [congruence|]. split; [|split].
  - apply (wellformed_step (self w)); [exact Hwf|auto|auto].
  - rewrite Hd'. apply ramp_duty_bounds; [assumption..|lia].
  - destruct (ramp_speed 50 w <? 0) eqn:Hb; [right; right; right; reflexivity|].
    right; right; left. split; [reflexivity|]. right. split; [exact Hm|].
    rewrite Hs. destruct (_ >? 100); lia.
Qed.

Lemma taskB_runFor st w :
  motorB_invariant st (self w) ->
  exists done w',
    runFor 50 2000 w = Ok (done, w') /\
    motorB_invariant (if done then 2 else 1) (self w') /\
    later_than w w'.
Proof.
  intros (Hmin & Hmax & Hwf & Hd & _).
  destruct (runFor_fields 50 2000 w)
    as (w' & E & Hc & Hr & Hp & Hd' & Hf & _ & _ & _ & Ht & Hrd).
  destruct Hc as (_ & Hmin' & Hmax' & _).
  eexists _, w'. split; [exact E|].
  split; [|apply later_than_cmp_read; assumption].
  split; [congruence|]. split; [congruence|]. split; [|split].
  - apply (wellformed_step (self w)); [exact Hwf| |].
    + rewrite Hr. cbn. auto.
    + rewrite Hp. destruct (_ >? 2000); cbn; auto.
  - rewrite Hd'. destruct (_ >? 2000); [lia|]. cbn [Z.geb Z.compare].
    apply ramp_duty_bounds; [assumption..|lia].
  - destruct (_ >? 2000); [|right; left; reflexivity].
    right; right; left. split; [reflexivity|]. left. exact Hf.
Qed.

Lemma taskB_waitFor st w :
  motorB_invariant st (self w) ->
  exists done w',
    waitFor 5000 w = Ok (done, w') /\
    motorB_invariant (if done then 0 else 3) (self w') /\
    later_than w w'.
Proof.
  intros (Hmin & Hmax & Hwf & Hd & _).
  destruct (waitFor_fields 5000 w)
    as (w' & E & Hc & Hr & Hp & Hd' & Hf & _ & _ & _ & Ht & Hrd).
  destruct Hc as (_ & Hmin' & Hmax' & _).
  eexists _, w'. split; [exact E|].
  split; [|apply later_than_cmp_read; assumption].
  split; [congruence|]. split; [congruence|]. split; [|split].
  - apply (wellformed_step (self w)); [exact Hwf|auto|].
    rewrite Hp. destruct (_firstRun (self w)); auto.
  - rewrite Hd'. destruct (_firstRun (self w)); lia.
  - destruct (_ >? 5000); [|right; right; right; reflexivity].
    left. split; [reflexivity|]. left. exact Hf.
Qed.

Lemma taskB_brake_reverse w :
  motorB_invariant 3 (self w) ->
  exists w',
    (brake ;; reverseRotation) w = Ok (tt, w') /\
    motorB_invariant 3 (self w') /\
    later_than w w'.
Proof.
  intros (Hmin & Hmax & Hwf & Hd & _).
  destruct (brake_fields w)
    as (w1 & E1 & Hc1 & Hr1 & Hp1 & Hd1 & _ & _ & _ & _ & Ht1 & Hrd1).
  destruct (reverseRotation_fields w1)
    as (w2 & E2 & Hc2 & Hr2 & Hp2 & Hd2 & _ & _ & _ & _ & Ht2 & Hrd2 & _).
  destruct Hc1 as (_ & Hmin1 & Hmax1 & _).
  destruct Hc2 as (_ & Hmin2 & Hmax2 & _).
  exists w2. unfold bind. rewrite E1. split; [exact E2|].
  split; [|split; [congruence|lia]].
  split; [congruence|]. split; [congruence|]. split; [|split].
  - apply (wellformed_step (self w1)); [|auto|auto].
    apply (wellformed_step (self w)); [exact Hwf|auto|auto].
  - rewrite Hd2, Hd1. lia.
  - right; right; right; reflexivity.
Qed.

Lemma taskB_keeps_invariant stB w0 :
  hoare (fun w => motorB_invariant stB (self w) /\ later_than w0 w)
        (taskB stB)
        (fun stB' w' => motorB_invariant stB' (self w') /\ later_than w0 w').
Proof.
  unfold taskB.
  apply hoare_bind
    with (Q := fun st w => motorB_invariant st (self w) /\ later_than w0 w).
  { destruct (stB =? 0) eqn:H0.
    - apply Z.eqb_eq in H0. subst stB. intros w [Hw Hl].
      destruct (taskB_ramp_up w Hw) as (done & w' & E & H & Hl').
      exists (if done then 1 else 0), w'. unfold bind, ret. rewrite E.
      split; [reflexivity|]. split; [exact H|].
      eapply later_than_trans; eassumption.
    - intros w Hw. exists stB, w. split; [reflexivity|exact Hw]. }
  intros st1.
  apply hoare_bind
    with (Q := fun st w => motorB_invariant st (self w) /\ later_than w0 w).
  { destruct (st1 =? 1) eqn:H1.
    - apply Z.eqb_eq in H1. subst st1. intros w [Hw Hl].
      destruct (taskB_runFor 1 w Hw) as (done & w' & E & H & Hl').
      exists (if done then 2 else 1), w'. unfold bind, ret. rewrite E.
      split; [reflexivity|]. split; [exact H|].
      eapply later_than_trans; eassumption.
    - intros w Hw. exists st1, w. split; [reflexivity|exact Hw]. }
  intros st2.
  apply hoare_bind
    with (Q := fun st w => motorB_invariant st (self w) /\ later_than w0 w).
  { destruct (st2 =? 2) eqn:H2.
    - apply Z.eqb_eq in H2. subst st2. intros w [Hw Hl].
      destruct (taskB_ramp_down w Hw) as (done & w' & E & H & Hl').
      destruct done.
      + destruct (taskB_brake_reverse w' H) as (w'' & E' & H' & Hl'').
        exists 3, w''. unfold bind in E' |- *. rewrite E.
        destruct (brake w') as [[u w1]|e]; [|discriminate].
        rewrite E'. split; [reflexivity|]. split; [exact H'|].
        eapply later_than_trans; [exact Hl|].
        eapply later_than_trans; eassumption.
      + exists 2, w'. unfold bind, ret. rewrite E.
        split; [reflexivity|]. split; [exact H|].
        eapply later_than_trans; eassumption.
    - intros w Hw. exists st2, w. split; [reflexivity|exact Hw]. }
  intros st3.
  destruct (st3 =? 3) eqn:H3.
  - apply Z.eqb_eq in H3. subst st3. intros w [Hw Hl].
    destruct (taskB_waitFor 3 w Hw) as (done & w' & E & H & Hl').
    exists (if done then 0 else 3), w'. unfold bind, ret. rewrite E.
    split; [reflexivity|]. split; [exact H|].
    eapply later_than_trans; eassumption.
  - intros w Hw. exists st3, w. split; [reflexivity|exact Hw].
Qed.

Lemma loop_body_keeps_invariant b :
  board_invariant b ->
  exists b',
    loop_body b = Ok b' /\
    board_invariant b' /\
    clock b' = clock b /\
    (taken b < taken b')%nat /\
    pin_level (led b') =
      (if clock b (taken b) mod ledPeriod <? ledPulsewidth then 0 else 1).
Proof.
  intros [HA HB]. unfold loop_body. cbv zeta.
  unfold onA at 1. cbn [objA objB stateA stateB clock taken logA logB led].
  set (wa := mkWorld (objA b) (clock b) (S (taken b)) (logA b)).
  destruct (taskA_keeps_invariant (stateA b) wa wa
              (conj HA (later_than_refl wa)))
    as (sA & wA & EA & HA' & HlA1 & HlA2).
  rewrite EA.
  unfold onB. cbn [objA objB stateA stateB clock taken logA logB led].
  set (wb := mkWorld (objB b) (ticks wA) (reads wA) (logB b)).
  destruct (taskB_keeps_invariant (stateB b) wb wb
              (conj HB (later_than_refl wb)))
    as (sB & wB & EB & HB' & HlB1 & HlB2).
  rewrite EB.
  eexists. split; [reflexivity|].
  cbn [objA objB stateA stateB clock taken logA logB led pin_level].
  split; [split; assumption|].
  subst wa wb. cbn [ticks reads] in *.
  split; [congruence|]. split; [lia|reflexivity].
Qed.

(** X10: the main loop, on any clock and for any number of turns, never
    raises; [stateA] stays in [{0, 1}] and [stateB] in [{0, .., 3}];
    neither motor ever has both direction pins high; the duty of motor A
    is always 0 or 307 (30 %); the duty of motor B stays between -9 and
    1033, the duties of -1 % and 101 %, and its ramp speed, while it
    ramps, between -1 and 101. *)
Theorem main_loop_invariant clk n :
  exists b,
    loop n (board0 clk) = Ok b /\
    (stateA b = 0 \/ stateA b = 1) /\
    0 <= stateB b <= 3 /\
    wellformed (objA b) /\ wellformed (objB b) /\
    (duty (objA b) = 0 \/ duty (objA b) = 307) /\
    -9 <= duty (objB b) <= 1033 /\
    (_firstRun (objB b) = false -> stateB b = 0 \/ stateB b = 2 ->
     -1 <= _sp (objB b) <= 101) /\
    clock b = clk.
Proof.
  assert (G : forall n b, board_invariant b ->
            exists b', loop n b = Ok b' /\ board_invariant b' /\
                       clock b' = clock b).
  { clear n. induction n as [|n IH]; intros b Hb.
    - exists b. repeat split; apply Hb.
    - destruct (loop_body_keeps_invariant b Hb) as (b1 & E1 & H1 & Hc1 & _).
      destruct (IH b1 H1) as (b' & E & H' & Hc').
      exists b'. cbn [loop]. rewrite E1. split; [exact E|].
      split; [exact H'|congruence]. }
  destruct (G n (board0 clk)) as (b & E & [HA HB] & Hc).
  - split.
    + split; [left; reflexivity|]. split; [reflexivity|]. split; [reflexivity|].
      split; [split; left; reflexivity|left; reflexivity].
    + split; [reflexivity|]. split; [reflexivity|].
      split; [split; left; reflexivity|]. split; [cbn; lia|].
      left. split; [reflexivity|left; reflexivity].
  - exists b. split; [exact E|].
    destruct HA as (HsA & _ & _ & HwfA & HdA).
    destruct HB as (_ & _ & HwfB & HdB & Hph).
    split; [exact HsA|]. split; [|split; [exact HwfA|split; [exact HwfB|]]].
    + destruct Hph as [[H _]|[H|[[H _]|H]]]; lia.
    + split; [exact HdA|]. split; [exact HdB|]. split; [|exact Hc].
      intros Hf Hst.
      destruct Hph as [[H [Ha|[_ Hs]]]|[H|[[H [Ha|[_ Hs]]]|H]]];
        try congruence; try lia.
Qed.

(** ** More on [map] *)








End dcMotor.
